(** * fastblur: a shallow embedding of the blur pipeline

    The development follows [fastblur.c] (version 0.2.0): the pixel buffer
    ([struct img]), the gamma decode of a raw bitmap, the transposition, the
    crop view, the nearest-neighbour resize, the fill-crop geometry, the
    recursive moving-average filter and the option parsers; then the
    halving, the filter over the columns, the gamma functions, the gamma
    encode to a bitmap and the sequence of passes and transpositions of
    [main].

    Modelling conventions.
    - [int] and [size_t] values are integers of [Z]; the images considered
      are small enough that no index computation overflows.  The
      conversions between integer types are written out where a value
      changes type: the result of [strtol] and [strtoul], and the size
      that [img_set_size] computes, compares and records.
    - The pixels are rationals of [Q] and the arithmetic on them is exact:
      the statements about the values that the filters compute are
      statements in exact arithmetic, and say so.  A conversion [(int)] of
      such a value truncates towards zero ([Qtrunc]).
    - Where the result is an integer computed through floats (the crop
      rectangle, the indices of the scaling) or the subject is the
      rounding itself (the bytes of the fast gamma, the residue of the
      running sum), the functions are given in binary32 as the program
      computes them (module [B32], over [SpecFloat]).
    - [powf] has no model in [Q] or in binary32: in the pipeline the table
      of the exact gamma decode and the two gamma encoders are parameters,
      and the gamma functions themselves are given over the reals (module
      [RGamma]).
    - A [float *] is the map from offsets to the floats stored there
      ([mem]); a pointer into the middle of a buffer is the shifted map.
      The size of a block is recorded ([alloc_size]) and not enforced:
      reading or writing a cell never fails, and the statements about
      indices say which cells are touched.  The contents of a freshly
      allocated block are indeterminate in C: they are given by the
      section variable [malloc], which is taken to succeed.
    - A function that fills [dst] from [src] reads the block of [src] and
      returns the new [dst]: the two are distinct blocks, as they are at
      every call in [main].
    - A C string is a [string] (its terminating NUL is implicit); a
      [char *] into it is the remaining suffix.
    - A [for] loop is [for_range] (or [for_step]) applied to its body, a
      function of the loop variable and of the state the loop updates. *)

From Stdlib Require Import Reals Lra Floats.SpecFloat.
From Stdlib Require Import ZArith QArith Qround Qabs List Bool Lia Lqa.
From Stdlib Require Import Strings.String Strings.Ascii Strings.Byte.
Import ListNotations.

Local Open Scope Z_scope.

(** ** Loops *)

Fixpoint for_loop {S : Type} (fuel : nat) (i step : Z)
  (body : Z -> S -> S) (s : S) : S :=
  match fuel with
  | O => s
  | Datatypes.S k => for_loop k (i + step) step body (body i s)
  end.

(** [for (i = lo; i < hi; i++) body] *)
Definition for_range {S : Type} (lo hi : Z) (body : Z -> S -> S) (s : S) : S :=
  for_loop (Z.to_nat (hi - lo)) lo 1 body s.

(** [for (i = lo; i < hi; i += step) body], for a positive [step] and
    [lo <= hi] *)
Definition for_step {S : Type} (lo hi step : Z) (body : Z -> S -> S) (s : S) : S :=
  for_loop (Z.to_nat ((hi - lo + step - 1) / step)) lo step body s.

(** ** Machine conversions *)

(** [(int) v] for a float [v]: truncation towards zero. *)
Definition Qtrunc (v : Q) : Z := Z.quot (Qnum v) (Zpos (Qden v)).

(** Conversion of a [long] to [int] on an LP64 target: reduction modulo
    2^32 into the signed range. *)
Definition to_int (z : Z) : Z := (z + 2 ^ 31) mod 2 ^ 32 - 2 ^ 31.

Definition LONG_MAX : Z := 2 ^ 63 - 1.
Definition LONG_MIN : Z := - 2 ^ 63.

Definition INT_MAX : Z := 2 ^ 31 - 1.
Definition INT_MIN : Z := - 2 ^ 31.

(** Conversion of an integer to [size_t] on an LP64 target: reduction
    modulo 2^64. *)
Definition to_size_t (z : Z) : Z := z mod 2 ^ 64.

Definition MIN (a b : Z) : Z := if a <? b then a else b.
Definition MAX (a b : Z) : Z := if a >? b then a else b.

Definition IDX (w x y s : Z) : Z := s * (w * y + x).

(** ** Pixel buffers *)

Definition mem : Type := Z -> Q.

(** [m[i] = v] *)
Definition upd (m : mem) (i : Z) (v : Q) : mem :=
  fun j => if j =? i then v else m j.

(** [&m[off]] *)
Definition shift (m : mem) (off : Z) : mem := fun j => m (off + j).

Record img : Type := mk_img {
  width : Z;
  height : Z;
  stride : Z;
  owner : bool;
  alloc_size : Z;
  pixels : option mem   (* [None] is the NULL pointer *)
}.

Record geometry : Type := mk_geometry {
  geom_width : Z;
  geom_height : Z;
  geom_anchor : Q
}.

Inductive pixel_format : Type :=
| FORMAT_RGB
| FORMAT_RGBA
| FORMAT_ARGB
| FORMAT_BGR
| FORMAT_BGRA
| FORMAT_ABGR.

Record raw_image_format : Type := mk_raw_image_format {
  fmt_format : pixel_format;
  fmt_width : Z;
  fmt_height : Z
}.

Definition pixel_format_size (f : pixel_format) : Z :=
  match f with
  | FORMAT_RGB => 3
  | FORMAT_RGBA => 4
  | FORMAT_ARGB => 4
  | FORMAT_BGR => 3
  | FORMAT_BGRA => 4
  | FORMAT_ABGR => 4
  end.

Definition pixel_format_rgb_offset (f : pixel_format) (c : Z) : Z :=
  let '(r, g, b) :=
    match f with
    | FORMAT_RGB => (0, 1, 2)
    | FORMAT_RGBA => (0, 1, 2)
    | FORMAT_ARGB => (1, 2, 3)
    | FORMAT_BGR => (2, 1, 0)
    | FORMAT_BGRA => (2, 1, 0)
    | FORMAT_ABGR => (3, 2, 1)
    end in
  if c =? 0 then r else if c =? 1 then g else b.

(** The floats behind [im->pixels]. Dereferencing NULL does not happen in
    the program: every buffer goes through [img_set_size] first. *)
Definition px (im : img) : mem :=
  match pixels im with
  | Some m => m
  | None => fun _ => 0%Q
  end.

Definition set_pixels (im : img) (m : mem) : img :=
  mk_img (width im) (height im) (stride im) (owner im) (alloc_size im) (Some m).

(** Channel [c] of the pixel in column [x] of row [y]: the row starts at
    [&im->pixels[im->stride * y]] and holds three floats per pixel. *)
Definition pixel_at (im : img) (x y c : Z) : Q :=
  px im (stride im * y + 3 * x + c).

Section Pipeline.

(** Contents of the block returned by [malloc (n)]. *)
Variable malloc : Z -> mem.

(** The table filled by [init_gamma_decode_lut], [powf (i / 255, 2.2)] at
    index [i]: [powf] has no rational model, the table is taken as given. *)
Variable gamma_decode_lut : byte -> Q.

(** [int size = sizeof(float) * 3 * img->width * img->height] is a
    product of [size_t] converted to [int]; [size > img->alloc_size]
    compares in [size_t], and [img->alloc_size] and the argument of
    [malloc] are values of [size_t]. *)
Definition img_set_size (im : img) (w h : Z) : img :=
  let size := to_int (to_size_t (4 * 3 * w * h)) in
  let realloc :=
    match pixels im with
    | None => true
    | Some _ => to_size_t size >? alloc_size im
    end in
  if realloc
  then mk_img w h (3 * w) (owner im) (to_size_t size)
         (Some (malloc (to_size_t (4 * to_size_t size * 3))))
  else mk_img w h (3 * w) (owner im) (alloc_size im) (pixels im).

Definition img_init (im : img) (w h : Z) : img :=
  img_set_size (mk_img (width im) (height im) (stride im) (owner im)
                  (alloc_size im) None) w h.

Definition img_transpose (src dst : img) : img :=
  let dst := img_set_size dst (height src) (width src) in
  let src_w := width src in
  let src_h := height src in
  set_pixels dst
    (for_range 0 src_h (fun y =>
       for_range 0 src_w (fun x =>
         for_range 0 3 (fun c m =>
           upd m (IDX src_h y x 3 + c) (px src (IDX src_w x y 3 + c)))))
       (px dst)).

Definition img_crop (src : img) (w h x y : Z) : img :=
  mk_img w h (stride src) false 0
    (Some (shift (px src) (y * stride src + 3 * x))).

(** ** Gamma decode of a raw bitmap *)

Definition gamma_decode_fast (v : byte) : Q :=
  let scale_factor := (1 / 255)%Q in
  let x := (inject_Z (Z.of_N (Byte.to_N v)) * scale_factor)%Q in
  (x * x)%Q.

(** The float that [img_gamma_decode_bitmap] stores for a byte. *)
Definition gamma_decode (fast_gamma : bool) (v : byte) : Q :=
  if fast_gamma then gamma_decode_fast v else gamma_decode_lut v.

(** [bitmap[i]] *)
Definition byte_at (bitmap : list byte) (i : Z) : byte :=
  nth (Z.to_nat i) bitmap x00.

Definition img_gamma_decode_bitmap (im : img) (bitmap : list byte)
  (fmt : raw_image_format) (fast_gamma : bool) : img :=
  let im := img_init im (fmt_width fmt) (fmt_height fmt) in
  let pixel_size := pixel_format_size (fmt_format fmt) in
  let img_size := pixel_size * fmt_width fmt * fmt_height fmt in
  let offset := pixel_format_rgb_offset (fmt_format fmt) in
  set_pixels im
    (for_step 0 img_size pixel_size (fun i =>
       for_range 0 3 (fun c m =>
         if fast_gamma
         then upd m (i + c) (gamma_decode_fast (byte_at bitmap (i + offset c)))
         else upd m (i + c) (gamma_decode_lut (byte_at bitmap (i + offset c)))))
       (px im)).

(** ** Nearest-neighbour scaling *)

(** A local [struct img] before [img_init]: its fields are indeterminate;
    [img_init] overwrites all of them but [owner], which nothing reads. *)
Definition img_local : img := mk_img 0 0 0 false 0 None.

(** [int y_src = y * src->height * dst_height_rcp + 0.5], in exact
    arithmetic ([B32.y_src] is the same in binary32) *)
Definition y_src (src : img) (dst_height_rcp : Q) (y : Z) : Z :=
  Qtrunc (inject_Z (y * height src) * dst_height_rcp + (1 # 2))%Q.

(** [int x_src = x * src->width * dst_width_rcp + 0.5], in exact
    arithmetic ([B32.x_src] is the same in binary32) *)
Definition x_src (src : img) (dst_width_rcp : Q) (x : Z) : Z :=
  Qtrunc (inject_Z (x * width src) * dst_width_rcp + (1 # 2))%Q.

Definition img_interp_nearest (src : img) (w h : Z) : img :=
  let dst_width_rcp := (1 / inject_Z w)%Q in
  let dst_height_rcp := (1 / inject_Z h)%Q in
  let dst := img_init img_local w h in
  set_pixels dst
    (for_range 0 (height dst) (fun y =>
       let ys := y_src src dst_height_rcp y in
       for_range 0 (width dst) (fun x =>
         let xs := x_src src dst_width_rcp x in
         for_range 0 3 (fun c m =>
           upd m (stride dst * y + 3 * x + c)
                 (px src (stride src * ys + 3 * xs + c)))))
       (px dst)).

(** ** The recursive moving average *)

(** The body of the loop over the rows of [img_mov_avg_h]: [src_row x c]
    is [src_row[x][c]], and [base] is the offset of [dst_row] in the
    destination block [m]. *)
Definition mov_avg_row (src_row : Z -> Z -> Q) (base w n : Z) (m : mem) : mem :=
  let a := (1 / inject_Z n)%Q in
  let p := Z.quot (n - 1) 2 in
  let q := p + 1 in
  let dst_row x c := base + 3 * x + c in
  let m :=
    for_range 0 3 (fun c m =>
      upd m (dst_row 0 c) (src_row 0%Z c * inject_Z q * a)%Q) m in
  let m :=
    for_range 1 q (fun x =>
      for_range 0 3 (fun c m =>
        upd m (dst_row 0 c) (m (dst_row 0 c)%Z + a * src_row x c)%Q)) m in
  for_range 1 w (fun x =>
    for_range 0 3 (fun c m =>
      let hi := MIN (x + p) (w - 1) in
      let lo := MAX (x - q) 0 in
      upd m (dst_row x c)
        (m (dst_row (x - 1)%Z c) + a * src_row hi c - a * src_row lo c)%Q)) m.

Definition img_mov_avg_h (src dst : img) (n : Z) : img :=
  let dst := img_set_size dst (width src) (height src) in
  let w := width src in
  let h := height src in
  set_pixels dst
    (for_range 0 h (fun y =>
       mov_avg_row (fun x c => px src (stride src * y + 3 * x + c))
         (stride dst * y) w n)
       (px dst)).

(** The indices [x] of the [src_row[x]] that one row of [img_mov_avg_h]
    reads, in the order of the three loops. *)
Definition mov_avg_reads (w n : Z) : list Z :=
  let p := Z.quot (n - 1) 2 in
  let q := p + 1 in
  [0]
  ++ for_range 1 q (fun x l => l ++ [x]) []
  ++ for_range 1 w (fun x l => l ++ [MIN (x + p) (w - 1); MAX (x - q) 0]) [].

(** [sum_{lo <= k < hi} f k], summed from the left. *)
Definition sumQ (lo hi : Z) (f : Z -> Q) : Q :=
  for_range lo hi (fun k acc => acc + f k)%Q 0%Q.

(** The reference for the filter, in the words of the specification: the
    brute-force box convolution with clamp-to-edge, the average with
    [a = 1/n] and [p = (n-1)/2] of the samples [row[clamp (x-p)]] to
    [row[clamp (x+p)]] of a row of width [W]. *)
Definition clamp (i lo hi : Z) : Z := Z.max lo (Z.min i hi).

Definition box_conv (row : Z -> Q) (W n x : Z) : Q :=
  let a := (1 / inject_Z n)%Q in
  let p := (n - 1) / 2 in
  (a * sumQ (x - p) (x + p + 1) (fun k => row (clamp k 0 (W - 1))))%Q.

(** ** Option parsing *)

Inductive crop_mode : Type :=
| CROP_NONE
| CROP_FILL.

Record arguments : Type := mk_arguments {
  output_file : option string;
  input_file : option string;
  fast_gamma : bool;
  raw_image : bool;
  blur_size : Z;
  blur_passes : Z;
  arg_crop_mode : crop_mode;
  geom : geometry;
  raw_fmt : raw_image_format
}.

(** [*s], the NUL at the end of the string included *)
Definition deref (s : string) : ascii :=
  match s with
  | String c _ => c
  | EmptyString => zero
  end.

(** [s + 1], for [s] not at its terminator *)
Definition next (s : string) : string :=
  match s with
  | String _ r => r
  | EmptyString => EmptyString
  end.

(** [p == q] for two pointers into the same string *)
Definition ptr_eq (p q : string) : bool :=
  (String.length p =? String.length q)%nat.

(** The bytes that lie after the terminator of the option argument. *)
Variable beyond : nat -> ascii.

(** [s[i]] *)
Fixpoint char_at (s : string) (i : nat) : ascii :=
  match s, i with
  | String c _, O => c
  | String _ r, Datatypes.S k => char_at r k
  | EmptyString, O => zero
  | EmptyString, Datatypes.S k => beyond k
  end.

Definition isspace (c : ascii) : bool :=
  let n := nat_of_ascii c in
  ((n =? 32) || ((9 <=? n) && (n <=? 13)))%nat.

Definition digit_of (c : ascii) : option Z :=
  let n := Z.of_nat (nat_of_ascii c) in
  if (48 <=? n) && (n <=? 57) then Some (n - 48) else None.

Fixpoint skip_space (s : string) : string :=
  match s with
  | String c r => if isspace c then skip_space r else s
  | EmptyString => s
  end.

Fixpoint strtol_digits (s : string) (acc : Z) : Z * string :=
  match s with
  | String c r =>
      match digit_of c with
      | Some d => strtol_digits r (10 * acc + d)
      | None => (acc, s)
      end
  | EmptyString => (acc, s)
  end.

(** [strtol (str, &ptr, 10)] of the C library, as the C standard
    describes it: white space, an optional sign, decimal digits; the value
    is clamped to the range of [long]; without a digit nothing is
    converted and [ptr] is [str]. The result is [(value, ptr)]. *)
Definition strtol (str : string) : Z * string :=
  let s := skip_space str in
  let '(neg, s) :=
    match s with
    | String "-" r => (true, r)
    | String "+" r => (false, r)
    | _ => (false, s)
    end in
  match digit_of (deref s) with
  | Some _ =>
      let '(v, rest) := strtol_digits s 0 in
      let v := if neg : bool then - v else v in
      (Z.max LONG_MIN (Z.min LONG_MAX v), rest)
  | None => (0, str)
  end.

(** [strtof (str, &ptr)] of the C library, [(value, ptr)]: the syntax of
    floats is not modelled, the function is taken as given. *)
Variable strtof : string -> Q * string.

(** [strncmp (a, b, n)] *)
Fixpoint strncmp (a b : string) (n : nat) : Z :=
  match n with
  | O => 0
  | Datatypes.S k =>
      let ca := deref a in
      let cb := deref b in
      if Ascii.eqb ca cb
      then if Ascii.eqb ca zero then 0 else strncmp (next a) (next b) k
      else Z.of_nat (nat_of_ascii ca) - Z.of_nat (nat_of_ascii cb)
  end.

(** The result is the returned [int] and the updated [*geom]. *)
Definition parse_geometry (str : string) (geom : geometry) : Z * geometry :=
  let '(v, ptr) := strtol str in
  let geom := mk_geometry (to_int v) (geom_height geom) (geom_anchor geom) in
  if ptr_eq ptr str || negb (Ascii.eqb (deref ptr) "x")
  then (0, geom)
  else
    let str := ptr in
    let str := next str in
    let '(v, ptr) := strtol str in
    let geom := mk_geometry (geom_width geom) (to_int v) (geom_anchor geom) in
    if ptr_eq ptr str
    then (0, geom)
    else
      let str := ptr in
      if negb (Ascii.eqb (deref str) "@")
      then (1, geom)
      else
        let str := next str in
        let '(v, ptr) := strtof str in
        let geom := mk_geometry (geom_width geom) (geom_height geom) v in
        (if ptr_eq ptr str then 0 else 1, geom).

(** The result is the returned [int] and the updated [*raw_fmt]. *)
Definition parse_raw_format (str : string) (raw_fmt : raw_image_format)
  : Z * raw_image_format :=
  let '(v, ptr) := strtol str in
  let raw_fmt :=
    mk_raw_image_format (fmt_format raw_fmt) (to_int v) (fmt_height raw_fmt) in
  if ptr_eq ptr str || negb (Ascii.eqb (deref ptr) "x")
  then (0, raw_fmt)
  else
    let str := ptr in
    let str := next str in
    let '(v, ptr) := strtol str in
    let raw_fmt :=
      mk_raw_image_format (fmt_format raw_fmt) (fmt_width raw_fmt) (to_int v) in
    if ptr_eq ptr str || negb (Ascii.eqb (deref ptr) ":")
    then (0, raw_fmt)
    else
      let str := ptr in
      let str := next str in
      let alpha_first := Ascii.eqb (deref str) "a" in
      let str := if alpha_first then next str else str in
      let rgb := negb (strncmp str "rgb" 3 =? 0) in
      let bgr := negb (strncmp str "bgr" 3 =? 0) in
      if negb rgb && negb bgr
      then (0, raw_fmt)
      else
        let alpha_last := negb alpha_first && Ascii.eqb (char_at str 3) "a" in
        let format :=
          if alpha_first
          then if rgb then FORMAT_ARGB else FORMAT_ABGR
          else if alpha_last
          then if rgb then FORMAT_RGBA else FORMAT_BGRA
          else if rgb then FORMAT_RGB else FORMAT_BGR in
        (1, mk_raw_image_format format (fmt_width raw_fmt) (fmt_height raw_fmt)).

(** [strtoul (str, &ptr, 10)]: the syntax of [strtol]; the value is
    clamped to the range of [unsigned long] and negated in that type after
    a minus sign. *)
Definition ULONG_MAX : Z := 2 ^ 64 - 1.

Definition strtoul (str : string) : Z * string :=
  let s := skip_space str in
  let '(neg, s) :=
    match s with
    | String "-" r => (true, r)
    | String "+" r => (false, r)
    | _ => (false, s)
    end in
  match digit_of (deref s) with
  | Some _ =>
      let '(v, rest) := strtol_digits s 0 in
      let v := Z.min ULONG_MAX v in
      ((if neg : bool then - v else v) mod 2 ^ 64, rest)
  | None => (0, str)
  end.

(** The keys that [parse_opt] distinguishes: the options ['G'], ['z'],
    ['p'], ['r'] and [0x100], [ARGP_KEY_ARG], [ARGP_KEY_END], and any
    other key. *)
Inductive opt_key : Type :=
| KEY_G
| KEY_z
| KEY_p
| KEY_r
| KEY_0x100
| ARGP_KEY_ARG
| ARGP_KEY_END
| KEY_other.

Definition ARGP_ERR_UNKNOWN : Z := 7.

(** [argp_error] and [argp_usage] print a message and end the process;
    otherwise [parse_opt] returns an error code and has updated
    [*arguments]. *)
Inductive parse_result : Type :=
| argp_exit (message : string)
| returned (code : Z) (a : arguments).

Definition parse_opt (key : opt_key) (arg : string) (arg_num : Z)
  (a : arguments) : parse_result :=
  match key with
  | KEY_G =>
      returned 0
        (mk_arguments (output_file a) (input_file a) true (raw_image a)
           (blur_size a) (blur_passes a) (arg_crop_mode a) (geom a) (raw_fmt a))
  | KEY_z =>
      let '(v, e) := strtol arg in
      let size := to_int v in
      if ptr_eq e arg || (size <? 1)
      then argp_exit "invalid size, must be at least 1."
      else if Z.rem size 2 =? 0
      then argp_exit "invalid size, must be odd"
      else
        returned 0
          (mk_arguments (output_file a) (input_file a) (fast_gamma a)
             (raw_image a) size (blur_passes a) (arg_crop_mode a) (geom a)
             (raw_fmt a))
  | KEY_p =>
      let '(v, e) := strtoul arg in
      let passes := to_int v in
      if ptr_eq e arg || (passes <? 1)
      then argp_exit "invalid count, must be at least 1."
      else
        returned 0
          (mk_arguments (output_file a) (input_file a) (fast_gamma a)
             (raw_image a) (blur_size a) passes (arg_crop_mode a) (geom a)
             (raw_fmt a))
  | KEY_r =>
      let '(r, g) := parse_geometry arg (geom a) in
      if r =? 0
      then argp_exit "invalid geometry, format WxH@A."
      else
        returned 0
          (mk_arguments (output_file a) (input_file a) (fast_gamma a)
             (raw_image a) (blur_size a) (blur_passes a) CROP_FILL g
             (raw_fmt a))
  | KEY_0x100 =>
      let '(r, f) := parse_raw_format arg (raw_fmt a) in
      if r =? 0
      then argp_exit "invalid raw image format, WxH:FORMAT."
      else
        returned 0
          (mk_arguments (output_file a) (input_file a) (fast_gamma a)
             true (blur_size a) (blur_passes a) (arg_crop_mode a) (geom a) f)
  | ARGP_KEY_ARG =>
      if arg_num =? 0
      then
        returned 0
          (mk_arguments (output_file a) (Some arg) (fast_gamma a)
             (raw_image a) (blur_size a) (blur_passes a) (arg_crop_mode a)
             (geom a) (raw_fmt a))
      else if arg_num =? 1
      then
        returned 0
          (mk_arguments (Some arg) (input_file a) (fast_gamma a)
             (raw_image a) (blur_size a) (blur_passes a) (arg_crop_mode a)
             (geom a) (raw_fmt a))
      else argp_exit "usage"
  | ARGP_KEY_END =>
      if arg_num <? 1 then argp_exit "usage" else returned 0 a
  | KEY_other => returned ARGP_ERR_UNKNOWN a
  end.

(** [arguments] as [main] sets it before [argp_parse]; the fields that
    [main] leaves indeterminate are given a value here. *)
Definition default_arguments : arguments :=
  mk_arguments None None false false 31 4 CROP_NONE
    (mk_geometry (-1) (-1) (1 # 2)) (mk_raw_image_format FORMAT_RGB 0 0).

End Pipeline.

(** ** The rest of the pipeline *)

Section Rest.

Variable malloc : Z -> mem.

(** The body of the loop over the columns of [img_mov_avg_v]: [src_col i]
    is [src_col[i]], and [col] is the offset of [dst_col] in the
    destination block [m]. *)
Definition mov_avg_col (src_col : Z -> Q) (src_stride dst_stride col h n : Z)
  (m : mem) : mem :=
  let a := (1 / inject_Z n)%Q in
  let p := Z.quot (n - 1) 2 in
  let q := p + 1 in
  let dst_col i := col + i in
  let m :=
    for_range 0 3 (fun c m =>
      upd m (dst_col c) (src_col c * inject_Z q * a)%Q) m in
  let m :=
    for_range 1 q (fun y =>
      for_range 0 3 (fun c m =>
        upd m (dst_col c)
          (m (dst_col c) + a * src_col (y * src_stride + c)%Z)%Q)) m in
  for_range 1 h (fun y =>
    for_range 0 3 (fun c m =>
      let hi := MIN (y + p) (h - 1) in
      let lo := MAX (y - q) 0 in
      upd m (dst_col (y * dst_stride + c))
        (m (dst_col ((y - 1) * dst_stride + c)%Z)
         + a * src_col (hi * src_stride + c)%Z
         - a * src_col (lo * src_stride + c)%Z)%Q)) m.

Definition img_mov_avg_v (src dst : img) (n : Z) : img :=
  let dst := img_set_size malloc dst (width src) (height src) in
  let w := width src in
  let h := height src in
  set_pixels dst
    (for_range 0 w (fun x =>
       mov_avg_col (shift (px src) (3 * x)) (stride src) (stride dst)
         (3 * x) h n)
       (px dst)).

(** One of the two loops of [main] over the passes: a pass filters [src]
    into [dst] and [PTR_SWAP] exchanges the two. The state is
    [(src, dst)]. *)
Definition blur_loop (passes blur_size : Z) (src dst : img) : img * img :=
  for_range 0 passes
    (fun _ sd => (img_mov_avg_h malloc (fst sd) (snd sd) blur_size, fst sd))
    (src, dst).

(** [main] from the allocation of [img2] to the last [img_transpose]: the
    result is the image that [img_save_png] receives. *)
Definition main_blur (im : img) (passes blur_size : Z) : img :=
  let img2 := img_init malloc img_local (width im) (height im) in
  let sd := blur_loop passes blur_size im img2 in
  let dst := img_transpose malloc (fst sd) (snd sd) in
  let sd := (dst, fst sd) in
  let sd := blur_loop passes blur_size (fst sd) (snd sd) in
  img_transpose malloc (fst sd) (snd sd).

(** ** Halving *)

Definition img_box2x2 (src dst : img) : img :=
  let dst :=
    img_set_size malloc dst (Z.quot (width src) 2) (Z.quot (height src) 2) in
  set_pixels dst
    (for_range 0 (height dst) (fun y =>
       let src_row x c := px src (stride src * y * 2 + 3 * x + c) in
       let src_row2 x c := px src (stride src * y * 2 + 1 + 3 * x + c) in
       for_range 0 (height dst) (fun x =>
         for_range 0 3 (fun c m =>
           let sum := 0%Q in
           let sum := (sum + src_row (2 * x)%Z c)%Q in
           let sum := (sum + src_row (2 * x + 1)%Z c)%Q in
           let sum := (sum + src_row2 (2 * x)%Z c)%Q in
           let sum := (sum + src_row2 (2 * x + 1)%Z c)%Q in
           upd m (stride dst * y + 3 * x + c) ((1 # 4) * sum)%Q)))
       (px dst)).

(** The local [tmp] has [pixels = NULL] and its other fields
    indeterminate, as [img_local]; the state of the loop is [(src, dst)]
    and the result is [*src]. *)
Definition img_decimate (im : img) (n : Z) : img :=
  let tmp := img_local in
  fst (for_range 0 n
         (fun _ sd => (img_box2x2 (fst sd) (snd sd), fst sd))
         (im, tmp)).

(** ** Gamma encode to a bitmap *)

(** [gamma_encode] and [gamma_encode_fast] round [255 * powf (v, 1/2.2)]
    and [255 * sqrtf (v)]: they have no rational model and are taken as
    given. *)
Variable gamma_encode : Q -> byte.
Variable gamma_encode_fast : Q -> byte.

(** The bytes behind a [uint8_t *]. *)
Definition bytes : Type := Z -> byte.

Definition upd_byte (b : bytes) (i : Z) (v : byte) : bytes :=
  fun j => if j =? i then v else b j.

(** Contents of the block of bytes returned by [malloc (n)]. *)
Variable malloc_bytes : Z -> bytes.

Definition img_gamma_encode_to_bitmap (im : img) (fast_gamma : bool) : bytes :=
  let size := 3 * width im * height im in
  let bitmap := malloc_bytes size in
  for_range 0 (height im) (fun y =>
    for_range 0 (3 * width im) (fun i bitmap =>
      if fast_gamma
      then upd_byte bitmap (3 * width im * y + i)
             (gamma_encode_fast (px im (stride im * y + i)))
      else upd_byte bitmap (3 * width im * y + i)
             (gamma_encode (px im (stride im * y + i)))))
    bitmap.

End Rest.

(** ** Binary32 arithmetic *)

(** The functions whose result is an integer computed through floats, or
    whose subject is the rounding itself, are given here over the binary32
    and binary64 formats of IEEE 754 ([SpecFloat]), as the program computes
    when every operation is rounded to nearest, ties to even, in the format
    of its C type, with no excess precision and no contraction: [float]
    operations in binary32, and the sum with the [double] constant [0.5]
    in binary64. *)
Module B32.

(** A [float] or a [double]: both are values of [spec_float], in the
    canonical form of their format. *)
Definition float : Type := spec_float.

Definition mul : float -> float -> float := SFmul 24 128.
Definition div : float -> float -> float := SFdiv 24 128.
Definition add : float -> float -> float := SFadd 24 128.
Definition sub : float -> float -> float := SFsub 24 128.
Definition sqrtf : float -> float := SFsqrt 24 128.

(** [a > b] and [a <= b] *)
Definition gt (a b : float) : bool := SFltb b a.
Definition le (a b : float) : bool := SFleb a b.

Definition zero : float := S754_zero false.

(** [(float) n] for an integer [n] *)
Definition of_int (n : Z) : float := binary_normalize 24 128 n 0 false.

(** [1.0f] and [0.5f] *)
Definition one : float := of_int 1.
Definition half : float := binary_normalize 24 128 1 (-1) false.

(** [(double) x] for a [float] [x]: the same number, in the canonical form
    of binary64 *)
Definition to_double (x : float) : float :=
  match x with
  | S754_finite s m e => binary_normalize 53 1024 (cond_Zopp s (Zpos m)) e s
  | _ => x
  end.

(** [x + 0.5] for a [double] [x] *)
Definition add_half (x : float) : float :=
  SFadd 53 1024 x (binary_normalize 53 1024 1 (-1) false).

(** The integer part of a finite [x], towards zero. *)
Definition trunc (x : float) : Z :=
  match x with
  | S754_finite s m e =>
      cond_Zopp s (if 0 <=? e then Zpos m * 2 ^ e else Zpos m / 2 ^ (- e))
  | _ => 0
  end.

(** [(int) x]. The conversion is undefined in C when [x] is not finite or
    its integer part is not an [int]; [INT_MIN] is what the conversion
    instruction of x86-64 gives then. *)
Definition to_int (x : float) : Z :=
  match x with
  | S754_nan | S754_infinity _ => INT_MIN
  | _ => if (INT_MIN <=? trunc x) && (trunc x <=? INT_MAX)
         then trunc x else INT_MIN
  end.

(** [(uint8_t) x]. Undefined in C when the integer part of [x] is not in
    0..255; the low byte of [(int) x] is taken then. *)
Definition to_uint8 (x : float) : byte :=
  match Byte.of_N (Z.to_N (to_int x mod 256)) with
  | Some b => b
  | None => x00
  end.

(** *** Fast gamma *)

Definition gamma_decode_fast (v : byte) : float :=
  let scale_factor := div one (of_int 255) in
  let x := mul (of_int (Z.of_N (Byte.to_N v))) scale_factor in
  mul x x.

Definition gamma_encode_fast (v : float) : byte :=
  to_uint8 (add (mul (of_int 255) (sqrtf v)) half).

(** *** The fill crop and the nearest-neighbour scaling *)

(** [struct geometry], with its [float] anchor *)
Record geometry : Type := mk_geometry {
  geom_width : Z;
  geom_height : Z;
  geom_anchor : float
}.

(** The crop rectangle [(crop_w, crop_h, crop_x, crop_y)] computed at the
    start of [img_resize_fill] (and, with the same text, in the [CROP_FILL]
    branch of [main]). *)
Definition fill_crop (img_width img_height : Z) (geom : geometry)
  : Z * Z * Z * Z :=
  let crop_aspect_ratio :=
    div (of_int (geom_width geom)) (of_int (geom_height geom)) in
  let img_aspect_ratio := div (of_int img_width) (of_int img_height) in
  if gt crop_aspect_ratio img_aspect_ratio
  then
    let crop_h :=
      to_int (add_half (to_double (div (of_int img_width) crop_aspect_ratio))) in
    let crop_y :=
      to_int (add_half (to_double
                (mul (geom_anchor geom) (of_int (img_height - crop_h))))) in
    (img_width, crop_h, 0, crop_y)
  else
    let crop_w :=
      to_int (add_half (to_double (mul (of_int img_height) crop_aspect_ratio))) in
    let crop_x :=
      to_int (add_half (to_double
                (mul (geom_anchor geom) (of_int (img_width - crop_w))))) in
    (crop_w, img_height, crop_x, 0).

(** [int y_src = y * src->height * dst_height_rcp + 0.5] *)
Definition y_src (src : img) (dst_height_rcp : float) (y : Z) : Z :=
  to_int (add_half (to_double (mul (of_int (y * height src)) dst_height_rcp))).

(** [int x_src = x * src->width * dst_width_rcp + 0.5] *)
Definition x_src (src : img) (dst_width_rcp : float) (x : Z) : Z :=
  to_int (add_half (to_double (mul (of_int (x * width src)) dst_width_rcp))).

Section Scaling.

Variable malloc : Z -> mem.

Definition img_interp_nearest (src : img) (w h : Z) : img :=
  let dst_width_rcp := div one (of_int w) in
  let dst_height_rcp := div one (of_int h) in
  let dst := img_init malloc img_local w h in
  set_pixels dst
    (for_range 0 (height dst) (fun y =>
       let ys := y_src src dst_height_rcp y in
       for_range 0 (width dst) (fun x =>
         let xs := x_src src dst_width_rcp x in
         for_range 0 3 (fun c m =>
           upd m (stride dst * y + 3 * x + c)
                 (px src (stride src * ys + 3 * xs + c)))))
       (px dst)).

Definition img_resize_fill (im : img) (geom : geometry) : img :=
  let '(crop_w, crop_h, crop_x, crop_y) :=
    fill_crop (width im) (height im) geom in
  let cropped := img_crop im crop_w crop_h crop_x crop_y in
  img_interp_nearest cropped (geom_width geom) (geom_height geom).

End Scaling.

(** *** The recursive moving average *)

(** The floats of a row or of a block. *)
Definition fmem : Type := Z -> float.

Definition updf (m : fmem) (i : Z) (v : float) : fmem :=
  fun j => if j =? i then v else m j.

(** The body of the loop over the rows of [img_mov_avg_h], as
    [mov_avg_row] above. *)
Definition mov_avg_row (src_row : Z -> Z -> float) (base w n : Z) (m : fmem)
  : fmem :=
  let a := div one (of_int n) in
  let p := Z.quot (n - 1) 2 in
  let q := p + 1 in
  let dst_row x c := base + 3 * x + c in
  let m :=
    for_range 0 3 (fun c m =>
      updf m (dst_row 0 c) (mul (mul (src_row 0 c) (of_int q)) a)) m in
  let m :=
    for_range 1 q (fun x =>
      for_range 0 3 (fun c m =>
        updf m (dst_row 0 c) (add (m (dst_row 0 c)) (mul a (src_row x c))))) m in
  for_range 1 w (fun x =>
    for_range 0 3 (fun c m =>
      let hi := MIN (x + p) (w - 1) in
      let lo := MAX (x - q) 0 in
      updf m (dst_row x c)
        (sub (add (m (dst_row (x - 1) c)) (mul a (src_row hi c)))
             (mul a (src_row lo c))))) m.

End B32.

(** ** Gamma over the reals *)

(** The two gamma modes with [powf] and [sqrtf] as the functions of real
    numbers that they approximate and every operation exact; the constants
    [2.2f], [1.0f / 255.0f] and [0.5f] are the numbers 2.2, 1/255 and 1/2.
    A byte is the integer that it holds. *)
Module RGamma.

Definition GAMMA : R := 22 / 10.

(** [powf (x, y)] for [0 <= x] and [0 < y] *)
Definition powf (x y : R) : R :=
  if Req_dec_T x 0 then 0%R else Rpower x y.

Definition scale_factor : R := 1 / 255.

(** The entry [i] of the table that [init_gamma_decode_lut] fills. *)
Definition gamma_decode_lut (i : Z) : R := powf (IZR i * scale_factor) GAMMA.

Definition gamma_decode_fast (v : Z) : R :=
  let x := (IZR v * scale_factor)%R in
  (x * x)%R.

(** [(uint8_t)] of a value that is not negative is its integer part. *)
Definition gamma_encode (v : R) : Z :=
  let gamma_rcp := (1 / GAMMA)%R in
  Int_part (255 * powf v gamma_rcp + / 2).

Definition gamma_encode_fast (v : R) : Z :=
  Int_part (255 * sqrt v + / 2).

End RGamma.

(** ** Loop invariants *)

(** Progress of the three nested loops of [img_transpose] on [src]: the
    pixels before [(Y, X, C)], in the order of the loops, are in place. *)
Definition transposed_upto (src : img) (Y X C : Z) (m : mem) : Prop :=
  forall x y c,
    0 <= x < width src -> 0 <= y < height src -> 0 <= c < 3 ->
    y < Y \/ (y = Y /\ (x < X \/ (x = X /\ c < C))) ->
    m (3 * (height src * x + y) + c) = px src (3 * (width src * y + x) + c).

Section RowInvariants.

Variable src_row : Z -> Z -> Q.
Variables base w n : Z.

(** After the first loop of [mov_avg_row], up to channel [C]. *)
Definition first_scaled (C : Z) (m : mem) : Prop :=
  forall c, 0 <= c < C ->
    (m (base + 3 * 0 + c)%Z
     == src_row 0 c * inject_Z (Z.quot (n - 1) 2 + 1) * (1 / inject_Z n))%Q.

(** In the second loop, before channel [C] of the sample [X]. *)
Definition first_summed (X C : Z) (m : mem) : Prop :=
  forall c, 0 <= c < 3 ->
    (m (base + 3 * 0 + c)%Z
     == src_row 0 c * inject_Z (Z.quot (n - 1) 2 + 1) * (1 / inject_Z n)
        + (1 / inject_Z n)
          * sumQ 1 (if c <? C then X + 1 else X) (fun k => src_row k c))%Q.

(** In the third loop, before channel [C] of the pixel [X]: the pixels
    before it hold the box convolution of the row. *)
Definition filtered_upto (X C : Z) (m : mem) : Prop :=
  forall x c, 0 <= x -> 0 <= c < 3 -> x < X \/ (x = X /\ c < C) ->
    (m (base + 3 * x + c)%Z == box_conv (fun k => src_row k c) w n x)%Q.

End RowInvariants.

(** ** Data for the examples *)

(** An allocator whose blocks are zeroed. *)
Definition zero_block : Z -> mem := fun _ _ => 0%Q.

(** A block whose cell [i] holds [i]. *)
Definition ramp : mem := fun i => inject_Z i.

(** A packed image of [w] by [h] pixels whose block is [ramp]. *)
Definition ramp_img (w h : Z) : img :=
  mk_img w h (3 * w) true (4 * 3 * w * h) (Some ramp).

(** A packed image of [w] by [h] pixels that all hold [k]. *)
Definition flat_img (w h : Z) (k : Q) : img :=
  mk_img w h (3 * w) true (4 * 3 * w * h) (Some (fun _ => k)).

(** An allocator whose blocks are [ramp]. *)
Definition ramp_block : Z -> mem := fun _ => ramp.

(** A row of six pixels, alike in the three channels: the decoded bytes
    1, 28, 0, 0, 0, 0. *)
Definition residue_row (x c : Z) : B32.float :=
  B32.gamma_decode_fast (nth (Z.to_nat x) [x01; x1c; x00; x00; x00; x00] x00).

(** A bitmap of 2 by 2 pixels of three bytes. *)
Definition four_pixels : list byte :=
  [x10; x20; x30; x40; x50; x60; x70; x80; x90; xa0; xb0; xc0].

(** A block of bytes that is zeroed. *)
Definition zero_bytes : Z -> bytes := fun _ _ => x00.

(** An encoder for the examples: [(uint8_t) (255 * sqrt (v) + 0.5)] with
    the square root of the reals, that is
    [(isqrt (floor (4 * 255 * 255 * v)) + 1) / 2], and 255 past the range
    of a byte. *)
Definition sqrt_encode (v : Q) : byte :=
  let r := (Z.sqrt (Qfloor (4 * 65025 * v)) + 1) / 2 in
  match Byte.of_N (Z.to_N r) with
  | Some b => b
  | None => xff
  end.

(** Bytes past the terminator of a string, for the examples. *)
Definition no_bytes : nat -> ascii := fun _ => "000"%char.

(** A [strtof] that converts nothing, for the examples. *)
Definition no_float (s : string) : Q * string := (0%Q, s).

(** * Facts *)

(** ** Loops *)

Section LoopFacts.
Context {S : Type}.

Lemma for_loop_ind (P : Z -> S -> Prop) (body : Z -> S -> S) (step : Z) :
  forall (fuel : nat) (i : Z) (s : S),
    P i s ->
    (forall k t, 0 <= k < Z.of_nat fuel ->
       P (i + k * step) t -> P (i + (k + 1) * step) (body (i + k * step) t)) ->
    P (i + Z.of_nat fuel * step) (for_loop fuel i step body s).
Proof.
  induction fuel as [|n IH]; intros i s Hi Hstep; cbn [for_loop].
  - now replace (i + Z.of_nat 0 * step) with i by lia.
  - replace (i + Z.of_nat (Datatypes.S n) * step)
      with ((i + step) + Z.of_nat n * step) by lia.
    apply IH.
    + specialize (Hstep 0). replace (i + 0 * step) with i in Hstep by lia.
      replace (i + (0 + 1) * step) with (i + step) in Hstep by lia.
      apply Hstep; [lia | exact Hi].
    + intros k t Hk Hp. specialize (Hstep (k + 1) t).
      replace (i + (k + 1) * step) with (i + step + k * step) in Hstep by lia.
      replace (i + (k + 1 + 1) * step) with (i + step + (k + 1) * step)
        in Hstep by lia.
      apply Hstep; [lia | exact Hp].
Qed.

(** The rule of the loop invariant for [for (i = lo; i < hi; i++)]. *)
Lemma for_range_ind (P : Z -> S -> Prop) (lo hi : Z) (body : Z -> S -> S) (s : S) :
  lo <= hi ->
  P lo s ->
  (forall j t, lo <= j < hi -> P j t -> P (j + 1) (body j t)) ->
  P hi (for_range lo hi body s).
Proof.
  intros Hle H0 Hstep. unfold for_range.
  replace hi with (lo + Z.of_nat (Z.to_nat (hi - lo)) * 1) at 1 by lia.
  apply for_loop_ind; [exact H0 |].
  intros k t Hk Hp.
  replace (lo + (k + 1) * 1) with (lo + k * 1 + 1) by lia.
  apply Hstep; [lia | exact Hp].
Qed.

Lemma for_range_empty (lo hi : Z) (body : Z -> S -> S) (s : S) :
  hi <= lo -> for_range lo hi body s = s.
Proof.
  intros H. unfold for_range. now replace (Z.to_nat (hi - lo)) with O by lia.
Qed.

(** The same rule for a loop that runs over the multiples of [step]
    below [step * n]; the invariant is indexed by the number of turns. *)
Lemma for_step_ind (P : Z -> S -> Prop) (n step : Z) (body : Z -> S -> S) (s : S) :
  0 < step -> 0 <= n ->
  P 0 s ->
  (forall k t, 0 <= k < n -> P k t -> P (k + 1) (body (k * step) t)) ->
  P n (for_step 0 (step * n) step body s).
Proof.
  intros Hs Hn H0 Hstep. unfold for_step.
  replace ((step * n - 0 + step - 1) / step) with n.
  2:{ replace (step * n - 0 + step - 1) with (n * step + (step - 1)) by lia.
      rewrite Z.div_add_l by lia. rewrite Z.div_small by lia. lia. }
  assert (HQ : exists k, 0 + Z.of_nat (Z.to_nat n) * step = k * step
                         /\ P k (for_loop (Z.to_nat n) 0 step body s)).
  { apply (for_loop_ind (fun i t => exists k, i = k * step /\ P k t)).
    - exists 0. split; [lia | exact H0].
    - intros k t Hk (k' & Hk' & Hp).
      assert (k' = k) by nia. subst k'.
      exists (k + 1). split; [lia |].
      replace (0 + k * step) with (k * step) by lia.
      apply Hstep; [lia | exact Hp]. }
  destruct HQ as (k & Hk & Hp).
  assert (k = n) by nia. now subst k.
Qed.

Lemma for_loop_last (body : Z -> S -> S) (step : Z) :
  forall (n : nat) (i : Z) (s : S),
    for_loop (Datatypes.S n) i step body s
    = body (i + Z.of_nat n * step) (for_loop n i step body s).
Proof.
  induction n as [|n IH]; intros i s.
  - cbn [for_loop Z.of_nat]. f_equal. lia.
  - change (for_loop (Datatypes.S (Datatypes.S n)) i step body s)
      with (for_loop (Datatypes.S n) (i + step) step body (body i s)).
    rewrite IH. cbn [for_loop]. f_equal. lia.
Qed.

Lemma for_range_last (lo hi : Z) (body : Z -> S -> S) (s : S) :
  lo <= hi ->
  for_range lo (hi + 1) body s = body hi (for_range lo hi body s).
Proof.
  intros H. unfold for_range.
  replace (Z.to_nat (hi + 1 - lo)) with (Datatypes.S (Z.to_nat (hi - lo))) by lia.
  rewrite for_loop_last. f_equal. lia.
Qed.

End LoopFacts.

Lemma Z_up_ind (P : Z -> Prop) (lo : Z) :
  P lo -> (forall k, lo <= k -> P k -> P (k + 1)) ->
  forall hi, lo <= hi -> P hi.
Proof.
  intros H0 Hs hi Hle.
  replace hi with (lo + Z.of_nat (Z.to_nat (hi - lo))) by lia.
  induction (Z.to_nat (hi - lo)) as [|n IH].
  - now rewrite Z.add_0_r.
  - replace (lo + Z.of_nat (Datatypes.S n)) with (lo + Z.of_nat n + 1) by lia.
    apply Hs; [lia | exact IH].
Qed.

Lemma for_loop_rel {S S' : Type} (R : S -> S' -> Prop)
  (body : Z -> S -> S) (body' : Z -> S' -> S') (step : Z) :
  forall (fuel : nat) (i : Z) (s : S) (s' : S'),
    R s s' ->
    (forall k t t', 0 <= k < Z.of_nat fuel -> R t t' ->
       R (body (i + k * step) t) (body' (i + k * step) t')) ->
    R (for_loop fuel i step body s) (for_loop fuel i step body' s').
Proof.
  induction fuel as [|n IH]; intros i s s' Hs Hstep; cbn [for_loop].
  - exact Hs.
  - apply IH.
    + specialize (Hstep 0 s s'). replace (i + 0 * step) with i in Hstep by lia.
      apply Hstep; [lia | exact Hs].
    + intros k t t' Hk Ht. specialize (Hstep (k + 1) t t').
      replace (i + (k + 1) * step) with (i + step + k * step) in Hstep by lia.
      apply Hstep; [lia | exact Ht].
Qed.

(** Two loops over the same range whose bodies preserve a relation
    between their states. *)
Lemma for_range_rel {S S' : Type} (R : S -> S' -> Prop) (lo hi : Z)
  (body : Z -> S -> S) (body' : Z -> S' -> S') (s : S) (s' : S') :
  R s s' ->
  (forall j t t', lo <= j < hi -> R t t' -> R (body j t) (body' j t')) ->
  R (for_range lo hi body s) (for_range lo hi body' s').
Proof.
  intros Hs Hstep. unfold for_range. apply for_loop_rel; [exact Hs |].
  intros k t t' Hk Ht. apply Hstep; [lia | exact Ht].
Qed.

Lemma for_range_collect (f : Z -> list Z) (lo hi x y : Z) :
  lo <= x < hi -> In y (f x) ->
  In y (for_range lo hi (fun x l => l ++ f x) []).
Proof.
  intros Hx Hy.
  cut (forall x, lo <= x < hi -> forall y, In y (f x) ->
         In y (for_range lo hi (fun x l => l ++ f x) [])).
  { intros H. now apply (H x). }
  apply (for_range_ind
           (fun X l => forall x, lo <= x < X -> forall y, In y (f x) -> In y l));
    [lia | intros; lia |].
  intros X l HX Hl x0 Hx0 y0 Hy0. apply in_or_app.
  destruct (Z.eq_dec x0 X) as [->|Hne]; [now right | left].
  apply (Hl x0); [lia | exact Hy0].
Qed.

(** ** Memory *)

Lemma upd_same (m : mem) (i : Z) (v : Q) : upd m i v i = v.
Proof. unfold upd. now rewrite Z.eqb_refl. Qed.

Lemma upd_other (m : mem) (i j : Z) (v : Q) : j <> i -> upd m i v j = m j.
Proof. unfold upd. intros H. apply Z.eqb_neq in H. now rewrite H. Qed.

Lemma px_set_pixels (im : img) (m : mem) : px (set_pixels im m) = m.
Proof. reflexivity. Qed.

(** Cells of distinct pixels and channels of a packed buffer are distinct. *)
Lemma packed_index_inj (h x y c x' y' c' : Z) :
  0 <= y < h -> 0 <= y' < h -> 0 <= c < 3 -> 0 <= c' < 3 ->
  3 * (h * x + y) + c = 3 * (h * x' + y') + c' ->
  x = x' /\ y = y' /\ c = c'.
Proof.
  intros Hy Hy' Hc Hc' E.
  assert (c = c') by lia. subst c'.
  assert (E' : h * x + y = h * x' + y') by lia.
  assert (x = x') by nia. subst x'. lia.
Qed.

Lemma strided_index_inj (s k c k' c' : Z) :
  3 <= s -> 0 <= c < 3 -> 0 <= c' < 3 ->
  s * k + c = s * k' + c' -> k = k' /\ c = c'.
Proof. intros Hs Hc Hc' E. assert (k = k') by nia. subst k'. lia. Qed.

(** ** Transposition *)

Section Transpose.
Variable malloc : Z -> mem.

Lemma img_set_size_dims (im : img) (w h : Z) :
  width (img_set_size malloc im w h) = w
  /\ height (img_set_size malloc im w h) = h
  /\ stride (img_set_size malloc im w h) = 3 * w.
Proof.
  unfold img_set_size.
  destruct (match pixels im with None => true | Some _ => _ end); cbn; auto.
Qed.

Lemma transposed_upto_step (src : img) (Y X C : Z) (m : mem) :
  0 <= X < width src -> 0 <= Y < height src -> 0 <= C < 3 ->
  transposed_upto src Y X C m ->
  transposed_upto src Y X (C + 1)
    (upd m (IDX (height src) Y X 3 + C) (px src (IDX (width src) X Y 3 + C))).
Proof.
  intros HX HY HC Hm x y c Hx Hy Hc Hlt. unfold IDX.
  destruct (Z.eq_dec (3 * (height src * x + y) + c)
              (3 * (height src * X + Y) + C)) as [E|E].
  - apply packed_index_inj in E; try lia. destruct E as (-> & -> & ->).
    now rewrite upd_same.
  - rewrite upd_other by exact E. apply Hm; try assumption.
    assert (~ (x = X /\ y = Y /\ c = C)) by (intros (-> & -> & ->); now apply E).
    lia.
Qed.

Lemma transpose_loops (src : img) (m : mem) :
  0 <= width src -> 0 <= height src ->
  transposed_upto src (height src) 0 0
    (for_range 0 (height src) (fun y =>
       for_range 0 (width src) (fun x =>
         for_range 0 3 (fun c m =>
           upd m (IDX (height src) y x 3 + c)
                 (px src (IDX (width src) x y 3 + c))))) m).
Proof.
  intros Hw Hh.
  apply (for_range_ind (fun Y m => transposed_upto src Y 0 0 m)); [exact Hh | |].
  - intros x y c Hx Hy Hc Hlt. lia.
  - intros Y m0 HY H0.
    assert (Hrow : transposed_upto src Y (width src) 0
      (for_range 0 (width src) (fun x =>
         for_range 0 3 (fun c m =>
           upd m (IDX (height src) Y x 3 + c)
                 (px src (IDX (width src) x Y 3 + c)))) m0)).
    { apply (for_range_ind (fun X m => transposed_upto src Y X 0 m));
        [exact Hw | exact H0 |].
      intros X m1 HX H1.
      assert (Hpix : transposed_upto src Y X 3
        (for_range 0 3 (fun c m =>
           upd m (IDX (height src) Y X 3 + c)
                 (px src (IDX (width src) X Y 3 + c))) m1)).
      { apply (for_range_ind (fun C m => transposed_upto src Y X C m));
          [lia | exact H1 |].
        intros C m2 HC H2. now apply transposed_upto_step. }
      intros x y c Hx Hy Hc Hlt. apply Hpix; try assumption. lia. }
    intros x y c Hx Hy Hc Hlt. apply Hrow; try assumption. lia.
Qed.

(** What [img_transpose] leaves in the destination block: the source is
    read with rows of [3 * width] floats, whatever its stride. *)
Lemma img_transpose_cells (src dst : img) (x y c : Z) :
  0 <= x < width src -> 0 <= y < height src -> 0 <= c < 3 ->
  px (img_transpose malloc src dst) (3 * (height src * x + y) + c)
  = px src (3 * (width src * y + x) + c).
Proof.
  intros Hx Hy Hc. unfold img_transpose. rewrite px_set_pixels.
  apply transpose_loops; try assumption; lia.
Qed.

Lemma img_transpose_dims (src dst : img) :
  width (img_transpose malloc src dst) = height src
  /\ height (img_transpose malloc src dst) = width src
  /\ stride (img_transpose malloc src dst) = 3 * height src.
Proof.
  unfold img_transpose. cbn [width height stride set_pixels].
  apply img_set_size_dims.
Qed.

(** On a buffer whose rows are packed ([stride = 3 * width], as
    [img_set_size] makes them) the destination of [img_transpose] holds at
    row [x], column [y] the pixel that the source holds at row [y],
    column [x]. *)
Lemma img_transpose_packed (src dst : img) (x y c : Z) :
  stride src = 3 * width src ->
  0 <= x < width src -> 0 <= y < height src -> 0 <= c < 3 ->
  pixel_at (img_transpose malloc src dst) y x c = pixel_at src x y c.
Proof.
  intros Hs Hx Hy Hc. unfold pixel_at.
  destruct (img_transpose_dims src dst) as (_ & _ & ->).
  rewrite Hs.
  replace (3 * height src * x + 3 * y + c)
    with (3 * (height src * x + y) + c) by lia.
  replace (3 * width src * y + 3 * x + c)
    with (3 * (width src * y + x) + c) by lia.
  now apply img_transpose_cells.
Qed.

(** C4: transposing an owned buffer twice gives back its width, its
    height and every channel of every pixel. *)
Theorem img_transpose_twice (src dst1 dst2 : img) :
  0 < width src -> 0 < height src -> stride src = 3 * width src ->
  width (img_transpose malloc (img_transpose malloc src dst1) dst2) = width src
  /\ height (img_transpose malloc (img_transpose malloc src dst1) dst2)
     = height src
  /\ forall x y c,
       0 <= x < width src -> 0 <= y < height src -> 0 <= c < 3 ->
       pixel_at (img_transpose malloc (img_transpose malloc src dst1) dst2)
         x y c
       = pixel_at src x y c.
Proof.
  intros Hw Hh Hs.
  destruct (img_transpose_dims src dst1) as (W1 & H1 & S1).
  destruct (img_transpose_dims (img_transpose malloc src dst1) dst2)
    as (W2 & H2 & S2).
  rewrite W2, H2, H1, W1. repeat split.
  intros x y c Hx Hy Hc.
  rewrite (img_transpose_packed (img_transpose malloc src dst1) dst2 y x c);
    rewrite ?S1, ?W1, ?H1; try lia.
  now apply img_transpose_packed.
Qed.

(** C3: a crop of one column out of a 2x2 buffer whose cell [i] holds
    [i]. The view has stride 6 and width 1; its pixel in row 1, column 0
    is cell 6, and [img_transpose], which steps through the source by
    [3 * width], stores cell 3 in row 0, column 1 of the destination. *)
Theorem img_transpose_view_stride :
  let base := mk_img 2 2 6 true 48 (Some ramp) in
  let view := img_crop base 1 2 0 0 in
  stride view = 6 /\ width view = 1 /\ height view = 2
  /\ pixel_at view 0 1 0 = inject_Z 6
  /\ pixel_at (img_transpose malloc view img_local) 1 0 0 = inject_Z 3
  /\ pixel_at (img_transpose malloc view img_local) 1 0 0
     <> pixel_at view 0 1 0.
Proof.
  cbv zeta. repeat split. vm_compute. discriminate.
Qed.

End Transpose.

(** ** Gamma decode of a bitmap *)

Section GammaDecode.
Variable malloc : Z -> mem.
Variable gamma_decode_lut : byte -> Q.

Lemma pixel_size_ge_3 (f : pixel_format) : 3 <= pixel_format_size f.
Proof. destruct f; cbn; lia. Qed.

(** What the loops of [img_gamma_decode_bitmap] leave in the block: the
    three channels of pixel [k] are at offset [pixel_size * k]. *)
Lemma img_gamma_decode_bitmap_cells (im : img) (bitmap : list byte)
  (fmt : raw_image_format) (fast_gamma : bool) (k c : Z) :
  0 <= fmt_width fmt -> 0 <= fmt_height fmt ->
  0 <= k < fmt_width fmt * fmt_height fmt -> 0 <= c < 3 ->
  px (img_gamma_decode_bitmap malloc gamma_decode_lut im bitmap fmt fast_gamma)
     (pixel_format_size (fmt_format fmt) * k + c)
  = gamma_decode gamma_decode_lut fast_gamma
      (byte_at bitmap (pixel_format_size (fmt_format fmt) * k
                       + pixel_format_rgb_offset (fmt_format fmt) c)).
Proof.
  intros Hw Hh Hk Hc. unfold img_gamma_decode_bitmap. rewrite px_set_pixels.
  set (ps := pixel_format_size (fmt_format fmt)).
  set (off := pixel_format_rgb_offset (fmt_format fmt)).
  assert (Hps : 3 <= ps) by apply pixel_size_ge_3.
  set (val := fun k c =>
    gamma_decode gamma_decode_lut fast_gamma (byte_at bitmap (ps * k + off c))).
  set (upto := fun (K C : Z) (m : mem) =>
    forall k c, 0 <= k -> 0 <= c < 3 -> k < K \/ (k = K /\ c < C) ->
      m (ps * k + c) = val k c).
  replace (ps * fmt_width fmt * fmt_height fmt)
    with (ps * (fmt_width fmt * fmt_height fmt)) by ring.
  cut (upto (fmt_width fmt * fmt_height fmt) 0
         (for_step 0 (ps * (fmt_width fmt * fmt_height fmt)) ps
            (fun i => for_range 0 3 (fun c m =>
               if fast_gamma
               then upd m (i + c) (gamma_decode_fast (byte_at bitmap (i + off c)))
               else upd m (i + c) (gamma_decode_lut (byte_at bitmap (i + off c)))))
            (px (img_init malloc im (fmt_width fmt) (fmt_height fmt))))).
  { intros H. apply H; lia. }
  apply (for_step_ind (fun K m => upto K 0 m)); [lia | nia | |].
  - intros k0 c0 H0 H1 H2. lia.
  - intros K m HK Hm.
    assert (Hpix : upto K 3
      (for_range 0 3 (fun c m =>
         if fast_gamma
         then upd m (K * ps + c) (gamma_decode_fast (byte_at bitmap (K * ps + off c)))
         else upd m (K * ps + c) (gamma_decode_lut (byte_at bitmap (K * ps + off c))))
         m)).
    { apply (for_range_ind (fun C m => upto K C m)); [lia | exact Hm |].
      intros C m1 HC H1 k1 c1 Hk1 Hc1 Hlt.
      assert (Hcell :
        (if fast_gamma
         then upd m1 (K * ps + C) (gamma_decode_fast (byte_at bitmap (K * ps + off C)))
         else upd m1 (K * ps + C) (gamma_decode_lut (byte_at bitmap (K * ps + off C))))
        = upd m1 (ps * K + C) (val K C)).
      { unfold val, gamma_decode. replace (K * ps) with (ps * K) by ring.
        now destruct fast_gamma. }
      rewrite Hcell.
      destruct (Z.eq_dec (ps * k1 + c1) (ps * K + C)) as [E|E].
      - apply strided_index_inj in E; try lia. destruct E as (-> & ->).
        now rewrite upd_same.
      - rewrite upd_other by exact E. apply H1; try assumption.
        assert (~ (k1 = K /\ c1 = C)) by (intros (-> & ->); now apply E).
        lia. }
    intros k1 c1 Hk1 Hc1 Hlt. apply Hpix; try assumption. lia.
Qed.

(** For the layouts of three bytes a pixel (RGB and BGR) the buffer is
    packed: cell [3 * k + c] holds the decoded byte
    [k * pixel_size + rgb_offset[c]]. *)
Lemma img_gamma_decode_bitmap_packed (im : img) (bitmap : list byte)
  (fmt : raw_image_format) (fast_gamma : bool) (k c : Z) :
  pixel_format_size (fmt_format fmt) = 3 ->
  0 <= fmt_width fmt -> 0 <= fmt_height fmt ->
  0 <= k < fmt_width fmt * fmt_height fmt -> 0 <= c < 3 ->
  px (img_gamma_decode_bitmap malloc gamma_decode_lut im bitmap fmt fast_gamma)
     (3 * k + c)
  = gamma_decode gamma_decode_lut fast_gamma
      (byte_at bitmap (k * pixel_format_size (fmt_format fmt)
                       + pixel_format_rgb_offset (fmt_format fmt) c)).
Proof.
  intros E Hw Hh Hk Hc.
  rewrite <- E at 1. rewrite img_gamma_decode_bitmap_cells by assumption.
  now rewrite (Z.mul_comm k).
Qed.

(** C6: a bitmap of two RGBA pixels, the first black and the second red.
    Cell [3 * 1 + 1] of the buffer should hold the decoded green byte of
    the second pixel (byte 5, which is 0); it holds its decoded red byte
    (byte 4, 255), because the loop writes pixel [k] at offset [4 * k]. *)
Theorem img_gamma_decode_bitmap_rgba :
  let bitmap := [x00; x00; x00; xff; xff; x00; x00; xff] in
  let fmt := mk_raw_image_format FORMAT_RGBA 2 1 in
  byte_at bitmap (1 * pixel_format_size FORMAT_RGBA
                  + pixel_format_rgb_offset FORMAT_RGBA 1) = x00
  /\ px (img_gamma_decode_bitmap malloc gamma_decode_lut img_local bitmap fmt true)
        (3 * 1 + 1) = gamma_decode_fast xff
  /\ px (img_gamma_decode_bitmap malloc gamma_decode_lut img_local bitmap fmt false)
        (3 * 1 + 1) = gamma_decode_lut xff
  /\ ~ (px (img_gamma_decode_bitmap malloc gamma_decode_lut img_local bitmap fmt
              true) (3 * 1 + 1)%Z
        == gamma_decode_fast
             (byte_at bitmap (1 * pixel_format_size FORMAT_RGBA
                              + pixel_format_rgb_offset FORMAT_RGBA 1)%Z))%Q.
Proof.
  cbv zeta. repeat split. vm_compute. discriminate.
Qed.

End GammaDecode.

(** ** Truncation of rationals *)

Lemma Qtrunc_floor (v : Q) : (0 <= v)%Q -> Qtrunc v = Qfloor v.
Proof.
  destruct v as [n d]. unfold Qle, Qtrunc, Qfloor. cbn. intros H.
  apply Z.quot_div_nonneg; lia.
Qed.

Lemma Qtrunc_nonneg (v : Q) : (0 <= v)%Q -> 0 <= Qtrunc v.
Proof.
  intros H. rewrite Qtrunc_floor by exact H.
  change 0 with (Qfloor 0). now apply Qfloor_resp_le.
Qed.

Lemma Qtrunc_le (v : Q) : (0 <= v)%Q -> (inject_Z (Qtrunc v) <= v)%Q.
Proof. intros H. rewrite Qtrunc_floor by exact H. apply Qfloor_le. Qed.

Lemma Qtrunc_gt (v : Q) : (0 <= v)%Q -> (v < inject_Z (Qtrunc v) + 1)%Q.
Proof.
  intros H. rewrite Qtrunc_floor by exact H.
  generalize (Qlt_floor v). rewrite inject_Z_plus. now cbn.
Qed.

Lemma Qtrunc_upper (v : Q) (k : Z) :
  (0 <= v)%Q -> (v < inject_Z k + 1)%Q -> Qtrunc v <= k.
Proof.
  intros H0 H1. generalize (Qtrunc_le v H0). intros H2.
  assert (H3 : (inject_Z (Qtrunc v) < inject_Z (k + 1))%Q).
  { rewrite inject_Z_plus. eapply Qle_lt_trans; [exact H2 | exact H1]. }
  rewrite <- Zlt_Qlt in H3. lia.
Qed.

Lemma Qtrunc_lower (v : Q) (k : Z) :
  0 <= k -> (inject_Z k <= v)%Q -> k <= Qtrunc v.
Proof.
  intros Hk H.
  assert (H0 : (0 <= v)%Q).
  { eapply Qle_trans; [| exact H]. change 0%Q with (inject_Z 0).
    now rewrite <- Zle_Qle. }
  rewrite Qtrunc_floor by exact H0.
  rewrite <- (Qfloor_Z k). now apply Qfloor_resp_le.
Qed.

Lemma inject_Z_pos (z : Z) : 0 < z -> (0 < inject_Z z)%Q.
Proof. intros H. change 0%Q with (inject_Z 0). now rewrite <- Zlt_Qlt. Qed.

Lemma inject_Z_nonneg (z : Z) : 0 <= z -> (0 <= inject_Z z)%Q.
Proof. intros H. change 0%Q with (inject_Z 0). now rewrite <- Zle_Qle. Qed.

Lemma inject_Z_pred (k : Z) : (inject_Z (k - 1) + 1 == inject_Z k)%Q.
Proof.
  change 1%Q with (inject_Z 1). rewrite <- inject_Z_plus.
  now replace (k - 1 + 1) with k by lia.
Qed.

Lemma Qdiv_mult_cancel (x t : Q) : (0 < t)%Q -> (x / t * t == x)%Q.
Proof. intros H. field. intros E. rewrite E in H. now apply Qlt_irrefl in H. Qed.

(** ** Nearest-neighbour scaling *)

Section Nearest.
Variable malloc : Z -> mem.

(** The index computed for coordinate [i] of a destination of length
    [dst_len], from a source of length [src_len]. *)
Lemma nearest_index_in_range (i src_len dst_len : Z) :
  0 < src_len -> 0 <= i < dst_len -> dst_len < 2 * src_len ->
  0 <= Qtrunc (inject_Z (i * src_len) * (1 / inject_Z dst_len) + (1 # 2))%Q
    <= src_len - 1.
Proof.
  intros Hs Hi Hd.
  set (r := (1 / inject_Z dst_len)%Q).
  assert (HD : (0 < inject_Z dst_len)%Q) by (apply inject_Z_pos; lia).
  assert (Hr : (r * inject_Z dst_len == 1)%Q) by now apply Qdiv_mult_cancel.
  assert (Hr0 : (0 < r)%Q).
  { unfold r. apply Qlt_shift_div_l; [exact HD | now rewrite Qmult_0_l]. }
  clearbody r.
  assert (Hi0 : (0 <= inject_Z i)%Q) by (apply inject_Z_nonneg; lia).
  assert (Hi1 : (inject_Z i + 1 <= inject_Z dst_len)%Q).
  { change 1%Q with (inject_Z 1). rewrite <- inject_Z_plus.
    rewrite <- Zle_Qle. lia. }
  assert (HS : (0 < inject_Z src_len)%Q) by now apply inject_Z_pos.
  assert (Hd' : (inject_Z dst_len < 2 * inject_Z src_len)%Q).
  { change 2%Q with (inject_Z 2). rewrite <- inject_Z_mult.
    now rewrite <- Zlt_Qlt. }
  rewrite inject_Z_mult.
  split.
  - apply Qtrunc_nonneg.
    assert (0 <= inject_Z i * inject_Z src_len * r)%Q; [| lra].
    repeat apply Qmult_le_0_compat; try assumption; now apply Qlt_le_weak.
  - apply Qtrunc_upper.
    + assert (0 <= inject_Z i * inject_Z src_len * r)%Q; [| lra].
      repeat apply Qmult_le_0_compat; try assumption; now apply Qlt_le_weak.
    + rewrite inject_Z_pred.
      assert (Ht : (0 < inject_Z src_len * r)%Q) by now apply Qmult_lt_0_compat.
      assert (Hdt : (inject_Z dst_len * (inject_Z src_len * r)
                     == inject_Z src_len)%Q).
      { transitivity (inject_Z src_len * (r * inject_Z dst_len))%Q; [ring |].
        rewrite Hr. ring. }
      rewrite <- Qmult_assoc.
      generalize dependent (inject_Z src_len * r)%Q. intros t Ht Hdt. nra.
Qed.

Lemma nearest_index_past_end (src_len dst_len : Z) :
  0 < src_len -> 2 * src_len <= dst_len ->
  src_len
  <= Qtrunc (inject_Z ((dst_len - 1) * src_len) * (1 / inject_Z dst_len)
             + (1 # 2))%Q.
Proof.
  intros Hs Hd.
  set (r := (1 / inject_Z dst_len)%Q).
  assert (HD : (0 < inject_Z dst_len)%Q) by (apply inject_Z_pos; lia).
  assert (Hr : (r * inject_Z dst_len == 1)%Q) by now apply Qdiv_mult_cancel.
  assert (Hr0 : (0 < r)%Q).
  { unfold r. apply Qlt_shift_div_l; [exact HD | now rewrite Qmult_0_l]. }
  clearbody r.
  assert (HS : (0 < inject_Z src_len)%Q) by now apply inject_Z_pos.
  assert (Hd' : (2 * inject_Z src_len <= inject_Z dst_len)%Q).
  { change 2%Q with (inject_Z 2). rewrite <- inject_Z_mult.
    now rewrite <- Zle_Qle. }
  apply Qtrunc_lower; [lia |].
  rewrite inject_Z_mult.
  generalize (inject_Z_pred dst_len). intros Hp.
  assert (Ht : (0 < inject_Z src_len * r)%Q) by now apply Qmult_lt_0_compat.
  assert (Hdt : (inject_Z dst_len * (inject_Z src_len * r)
                 == inject_Z src_len)%Q).
  { transitivity (inject_Z src_len * (r * inject_Z dst_len))%Q; [ring |].
    rewrite Hr. ring. }
  rewrite <- Qmult_assoc.
  generalize dependent (inject_Z src_len * r)%Q. intros t Ht Hdt. nra.
Qed.


Lemma x_src_in_row (src : img) (w x : Z) :
  0 < width src -> 0 <= x < w -> w < 2 * width src ->
  0 <= x_src src (1 / inject_Z w) x <= width src - 1.
Proof. intros. unfold x_src. now apply nearest_index_in_range. Qed.

Lemma y_src_in_image (src : img) (h y : Z) :
  0 < height src -> 0 <= y < h -> h < 2 * height src ->
  0 <= y_src src (1 / inject_Z h) y <= height src - 1.
Proof. intros. unfold y_src. now apply nearest_index_in_range. Qed.

(** Enlarging a row to twice its width or more sends the last
    destination column past the last source column. *)
Lemma x_src_past_row (src : img) (w : Z) :
  0 < width src -> 2 * width src <= w ->
  width src <= x_src src (1 / inject_Z w) (w - 1).
Proof. intros. unfold x_src. now apply nearest_index_past_end. Qed.

(** C9: a source of one pixel enlarged to three columns. For the column
    [x = 2] the source index is [(int) (2 * 1 / 3 + 0.5) = 1], past the only
    column 0, and the pixel stored there comes from cell 3, after the three
    floats of the source row; likewise for the rows. *)
Theorem img_interp_nearest_upscale :
  let src := mk_img 1 1 3 true 12 (Some ramp) in
  x_src src (1 / inject_Z 3) 2 = 1
  /\ y_src src (1 / inject_Z 3) 2 = 1
  /\ ~ (0 <= x_src src (1 / inject_Z 3) 2 <= width src - 1)
  /\ ~ (0 <= y_src src (1 / inject_Z 3) 2 <= height src - 1)
  /\ pixel_at (img_interp_nearest malloc src 3 1) 2 0 0 = inject_Z 3
  /\ pixel_at (img_interp_nearest malloc src 1 3) 0 2 0 = inject_Z 3.
Proof.
  cbv zeta. repeat split; vm_compute; intros [_ H]; now apply H.
Qed.

End Nearest.

(** ** Option parsing *)

Section ParserTheorems.
Variable beyond : nat -> ascii.
Variable strtof : string -> Q * string.
Local Open Scope string_scope.

Lemma strncmp_rgb_bgr (s : string) :
  strncmp s "rgb" 3 = 0 -> strncmp s "bgr" 3 = 0 -> False.
Proof.
  cbn [strncmp deref next]. destruct (Ascii.eqb (deref s) "r") eqn:Er.
  - apply Ascii.eqb_eq in Er. rewrite Er. cbn. discriminate.
  - intros H _. apply Ascii.eqb_neq in Er. apply Er.
    assert (E : nat_of_ascii (deref s) = nat_of_ascii "r") by lia.
    apply (f_equal ascii_of_nat) in E. now rewrite !ascii_nat_embedding in E.
Qed.

Lemma ptr_eq_next (c : ascii) (s : string) : ptr_eq s (String c s) = false.
Proof. unfold ptr_eq. cbn [String.length]. apply Nat.eqb_neq. lia. Qed.

(** Whatever follows the colon, [parse_raw_format] returns 1. *)
Lemma parse_raw_format_any_layout (layout : string) (f : raw_image_format) :
  fst (parse_raw_format beyond ("1x1:" ++ layout) f) = 1.
Proof.
  unfold parse_raw_format. cbn [append].
  change (strtol (String "1" (String "x" (String "1" (String ":" layout)))))
    with (1%Z, String "x" (String "1" (String ":" layout))).
  cbv iota beta zeta. rewrite ptr_eq_next.
  cbn [deref next Ascii.eqb Bool.eqb negb orb].
  change (strtol (String "1" (String ":" layout)))
    with (1%Z, String ":" layout).
  cbv iota beta zeta. rewrite ptr_eq_next.
  cbn [deref next Ascii.eqb Bool.eqb negb orb fmt_width fmt_height fmt_format].
  set (str := if Ascii.eqb (deref layout) "a" then next layout else layout).
  destruct (Z.eqb (strncmp str "rgb" 3) 0) eqn:Ergb;
    destruct (Z.eqb (strncmp str "bgr" 3) 0) eqn:Ebgr; cbn [negb andb fst];
    try reflexivity.
  apply Z.eqb_eq in Ergb, Ebgr; destruct (strncmp_rgb_bgr str Ergb Ebgr).
Qed.

(** C7: the two comparisons of the layout are inverted ([strncmp] is 0
    on a match): no layout is rejected, ["argb"] gets the tag ABGR,
    ["rgba"] the tag BGRA, and so on with RGB and BGR exchanged. *)
Theorem parse_raw_format_layouts (f : raw_image_format) :
  parse_raw_format beyond "1x1:argb" f = (1, mk_raw_image_format FORMAT_ABGR 1 1)
  /\ parse_raw_format beyond "1x1:abgr" f = (1, mk_raw_image_format FORMAT_ARGB 1 1)
  /\ parse_raw_format beyond "1x1:rgba" f = (1, mk_raw_image_format FORMAT_BGRA 1 1)
  /\ parse_raw_format beyond "1x1:bgra" f = (1, mk_raw_image_format FORMAT_RGBA 1 1)
  /\ parse_raw_format beyond "1x1:rgb" f = (1, mk_raw_image_format FORMAT_BGR 1 1)
  /\ parse_raw_format beyond "1x1:bgr" f = (1, mk_raw_image_format FORMAT_RGB 1 1)
  /\ parse_raw_format beyond "1x1:xyz" f = (1, mk_raw_image_format FORMAT_RGB 1 1)
  /\ parse_opt beyond strtof KEY_0x100 "1x1:xyz" 0 default_arguments
     = returned 0
         (mk_arguments None None false true 31 4 CROP_NONE
            (mk_geometry (-1) (-1) (1 # 2))
            (mk_raw_image_format FORMAT_RGB 1 1))
  /\ forall layout, fst (parse_raw_format beyond ("1x1:" ++ layout) f) = 1.
Proof.
  repeat (split; [reflexivity |]).
  intros layout. apply parse_raw_format_any_layout.
Qed.

(** C8: [parse_geometry] checks the form of the string and not the
    values: a width and a height of 0, or negative ones, are accepted, and
    [parse_opt] goes on with them; the size of the blur, next to it in
    [parse_opt], is checked against 1. *)
Theorem parse_geometry_no_range_check (g : geometry) :
  parse_geometry strtof "0x0" g = (1, mk_geometry 0 0 (geom_anchor g))
  /\ parse_geometry strtof "-5x-7" g = (1, mk_geometry (-5) (-7) (geom_anchor g))
  /\ parse_opt beyond strtof KEY_r "0x0" 0 default_arguments
     = returned 0
         (mk_arguments None None false false 31 4 CROP_FILL
            (mk_geometry 0 0 (1 # 2)) (mk_raw_image_format FORMAT_RGB 0 0))
  /\ parse_opt beyond strtof KEY_z "0" 0 default_arguments
     = argp_exit "invalid size, must be at least 1."
  /\ parse_opt beyond strtof KEY_p "0" 0 default_arguments
     = argp_exit "invalid count, must be at least 1.".
Proof.
  repeat split.
Qed.

(** The anchor is whatever [strtof] converts. *)
Lemma parse_geometry_anchor_unchecked (g : geometry) (a : Q) :
  strtof "7" = (a, "") ->
  parse_geometry strtof "1x1@7" g = (1, mk_geometry 1 1 a).
Proof.
  intros E. unfold parse_geometry.
  change (strtol "1x1@7") with (1%Z, "x1@7").
  cbv iota beta zeta.
  change (strtol (next "x1@7")) with (1%Z, "@7").
  cbv iota beta zeta. cbn [ptr_eq String.length Nat.eqb orb negb deref next
    Ascii.eqb Bool.eqb].
  change (next "@7") with "7". rewrite E. reflexivity.
Qed.

End ParserTheorems.

(** ** Sums *)

Lemma sumQ_empty (lo hi : Z) (f : Z -> Q) : hi <= lo -> sumQ lo hi f = 0%Q.
Proof. intros H. unfold sumQ. now rewrite for_range_empty. Qed.

Lemma sumQ_last (lo hi : Z) (f : Z -> Q) :
  lo <= hi -> sumQ lo (hi + 1) f = (sumQ lo hi f + f hi)%Q.
Proof. intros H. unfold sumQ. now rewrite for_range_last. Qed.

Lemma sumQ_ext (lo hi : Z) (f g : Z -> Q) :
  (forall k, lo <= k < hi -> (f k == g k)%Q) ->
  (sumQ lo hi f == sumQ lo hi g)%Q.
Proof.
  destruct (Z_le_gt_dec lo hi) as [Hle|Hgt].
  - revert hi Hle. apply (Z_up_ind (fun hi => _ -> _)).
    + intros _. now rewrite !sumQ_empty by lia.
    + intros k Hk IH Hfg. rewrite !sumQ_last by lia.
      rewrite IH by (intros; apply Hfg; lia).
      rewrite (Hfg k) by lia. reflexivity.
  - intros _. now rewrite !sumQ_empty by lia.
Qed.

Lemma sumQ_split (lo mid hi : Z) (f : Z -> Q) :
  lo <= mid <= hi ->
  (sumQ lo hi f == sumQ lo mid f + sumQ mid hi f)%Q.
Proof.
  intros [Hl Hh]. revert hi Hh. apply Z_up_ind.
  - rewrite (sumQ_empty mid mid) by lia. ring.
  - intros k Hk IH. rewrite !sumQ_last by lia. rewrite IH. ring.
Qed.

Lemma sumQ_first (lo hi : Z) (f : Z -> Q) :
  lo < hi -> (sumQ lo hi f == f lo + sumQ (lo + 1) hi f)%Q.
Proof.
  intros H. rewrite (sumQ_split lo (lo + 1) hi) by lia.
  rewrite sumQ_last by lia. rewrite sumQ_empty by lia. ring.
Qed.

Lemma sumQ_const (lo hi : Z) (f : Z -> Q) (v : Q) :
  lo <= hi -> (forall k, lo <= k < hi -> (f k == v)%Q) ->
  (sumQ lo hi f == inject_Z (hi - lo) * v)%Q.
Proof.
  intros Hle. revert hi Hle. apply (Z_up_ind (fun hi => _ -> _)).
  - intros _. rewrite sumQ_empty by lia. rewrite Z.sub_diag. ring.
  - intros k Hk IH Hf. rewrite sumQ_last by lia.
    rewrite IH by (intros; apply Hf; lia).
    rewrite (Hf k) by lia.
    replace (k + 1 - lo) with ((k - lo) + 1) by lia.
    rewrite inject_Z_plus. change (inject_Z 1) with 1%Q. ring.
Qed.

(** ** The box convolution *)

Lemma MIN_min (a b : Z) : MIN a b = Z.min a b.
Proof. unfold MIN. destruct (Z.ltb_spec a b); lia. Qed.

Lemma MAX_max (a b : Z) : MAX a b = Z.max a b.
Proof. unfold MAX. rewrite Z.gtb_ltb. destruct (Z.ltb_spec b a); lia. Qed.

Lemma radius_div (n : Z) :
  1 <= n -> (n - 1) / 2 = Z.quot (n - 1) 2 /\ 0 <= Z.quot (n - 1) 2.
Proof.
  intros Hn. rewrite Z.quot_div_nonneg by lia. split; [reflexivity |].
  apply Z.div_pos; lia.
Qed.

Lemma radius_fits (w n : Z) : 1 <= n -> n < 2 * w -> Z.quot (n - 1) 2 + 1 <= w.
Proof.
  intros Hn Hw. rewrite Z.quot_div_nonneg by lia.
  assert ((n - 1) / 2 < w); [| lia].
  apply Z.div_lt_upper_bound; lia.
Qed.

Section BoxConv.
Variable row : Z -> Q.
Variables W n : Z.
Hypothesis HW : 1 <= W.
Hypothesis Hn : 1 <= n.
Local Abbreviation a := (1 / inject_Z n)%Q.
Local Abbreviation p := (Z.quot (n - 1) 2).
Local Abbreviation q := (Z.quot (n - 1) 2 + 1).

(** The recursion of the filter: moving the window one sample to the
    right adds the sample that enters and removes the one that leaves. *)
Lemma box_conv_step (x : Z) :
  1 <= x <= W - 1 ->
  (box_conv row W n x
   == box_conv row W n (x - 1)
      + a * row (MIN (x + p) (W - 1)) - a * row (MAX (x - q) 0))%Q.
Proof.
  intros Hx. destruct (radius_div n Hn) as [Ep Hp].
  unfold box_conv. rewrite Ep.
  rewrite sumQ_last by lia.
  rewrite (sumQ_first (x - 1 - p)) by lia.
  replace (x - 1 - p + 1) with (x - p) by lia.
  replace (x - 1 + p + 1) with (x + p) by lia.
  rewrite MIN_min, MAX_max.
  replace (clamp (x + p) 0 (W - 1)) with (Z.min (x + p) (W - 1))
    by (unfold clamp; lia).
  replace (clamp (x - 1 - p) 0 (W - 1)) with (Z.max (x - q) 0)
    by (unfold clamp; lia).
  ring.
Qed.

(** The first sample of the filter, when the right half of the window
    fits into the row: [q] copies of [row 0] and the samples 1 to [q-1]. *)
Lemma box_conv_first :
  q <= W ->
  (box_conv row W n 0 == row 0 * inject_Z q * a + a * sumQ 1 q row)%Q.
Proof.
  intros Hq. destruct (radius_div n Hn) as [Ep Hp].
  unfold box_conv. rewrite Ep.
  rewrite (sumQ_split (0 - p) 1 (0 + p + 1)) by lia.
  rewrite (sumQ_const (0 - p) 1 _ (row 0)); [| lia |].
  2:{ intros k Hk. replace (clamp k 0 (W - 1)) with 0 by (unfold clamp; lia).
      reflexivity. }
  rewrite (sumQ_ext 1 (0 + p + 1) _ row).
  2:{ intros k Hk. replace (clamp k 0 (W - 1)) with k by (unfold clamp; lia).
      reflexivity. }
  replace (1 - (0 - p)) with q by lia.
  replace (0 + p + 1) with q by lia.
  ring.
Qed.

End BoxConv.

(** ** The recursive moving average *)

Section MovAvgRow.
Variable src_row : Z -> Z -> Q.
Variables base w n : Z.
Hypothesis Hw : 1 <= w.
Hypothesis Hn : 1 <= n.
Hypothesis Hq : Z.quot (n - 1) 2 + 1 <= w.
Local Abbreviation a := (1 / inject_Z n)%Q.
Local Abbreviation p := (Z.quot (n - 1) 2).
Local Abbreviation q := (Z.quot (n - 1) 2 + 1).
Local Abbreviation d x c := (base + 3 * x + c).

Lemma row_index_inj (x c x' c' : Z) :
  0 <= c < 3 -> 0 <= c' < 3 -> d x c = d x' c' -> x = x' /\ c = c'.
Proof. lia. Qed.

Lemma first_loop (m : mem) :
  first_scaled src_row base n 3
    (for_range 0 3
       (fun c m0 => upd m0 (d 0 c) (src_row 0 c * inject_Z q * a)%Q) m).
Proof.
  apply (for_range_ind (fun C m => first_scaled src_row base n C m)); [lia | |].
  - intros c Hc. lia.
  - intros C m0 HC H0 c Hc.
    destruct (Z.eq_dec c C) as [->|Hne].
    + rewrite upd_same. reflexivity.
    + rewrite upd_other by lia. apply H0. lia.
Qed.

Lemma second_loop (m : mem) :
  first_scaled src_row base n 3 m ->
  first_summed src_row base n q 0
    (for_range 1 q
       (fun x =>
        for_range 0 3
          (fun c m0 => upd m0 (d 0 c) (m0 (d 0 c) + a * src_row x c)%Q)) m).
Proof.
  intros H1. destruct (radius_div n Hn) as [_ Hp].
  apply (for_range_ind (fun X m => first_summed src_row base n X 0 m));
    [lia | |].
  - intros c Hc. rewrite (H1 c) by exact Hc.
    replace (c <? 0) with false by (symmetry; apply Z.ltb_ge; lia).
    rewrite sumQ_empty by lia. ring.
  - intros X m0 HX H0.
    assert (H3 : first_summed src_row base n X 3
      (for_range 0 3
         (fun c m1 => upd m1 (d 0 c) (m1 (d 0 c) + a * src_row X c)%Q) m0)).
    { apply (for_range_ind (fun C m => first_summed src_row base n X C m));
        [lia | exact H0 |].
      intros C m1 HC H2 c Hc.
      destruct (Z.eq_dec c C) as [->|Hne].
      - rewrite upd_same. rewrite (H2 C) by lia.
        rewrite Z.ltb_irrefl.
        replace (C <? C + 1) with true by (symmetry; apply Z.ltb_lt; lia).
        rewrite sumQ_last by lia. ring.
      - rewrite upd_other by lia.
        rewrite (H2 c) by lia.
        replace (c <? C + 1) with (c <? C); [reflexivity |].
        destruct (Z.ltb_spec c C), (Z.ltb_spec c (C + 1)); lia || reflexivity. }
    intros c Hc. rewrite (H3 c) by exact Hc.
    replace (c <? 3) with true by (symmetry; apply Z.ltb_lt; lia).
    replace (c <? 0) with false by (symmetry; apply Z.ltb_ge; lia).
    reflexivity.
Qed.

Lemma third_loop (m : mem) :
  filtered_upto src_row base w n 1 0 m ->
  filtered_upto src_row base w n w 0
    (for_range 1 w
       (fun x =>
        for_range 0 3
          (fun c m0 =>
           let hi := MIN (x + p) (w - 1) in
           let lo := MAX (x - q) 0 in
           upd m0 (d x c)
             (m0 (d (x - 1) c) + a * src_row hi c - a * src_row lo c)%Q)) m).
Proof.
  intros H2.
  apply (for_range_ind (fun X m => filtered_upto src_row base w n X 0 m));
    [exact Hw | exact H2 |].
  intros X m0 HX H0.
  assert (H3 : filtered_upto src_row base w n X 3
    (for_range 0 3
       (fun c m1 =>
        let hi := MIN (X + p) (w - 1) in
        let lo := MAX (X - q) 0 in
        upd m1 (d X c)
          (m1 (d (X - 1) c) + a * src_row hi c - a * src_row lo c)%Q) m0)).
  { apply (for_range_ind (fun C m => filtered_upto src_row base w n X C m));
      [lia | exact H0 |].
    intros C m1 HC H1 x c Hx Hc Hlt. cbv zeta.
    destruct (Z.eq_dec (d x c) (d X C)) as [E|E].
    - apply row_index_inj in E; try lia. destruct E as [-> ->].
      rewrite upd_same. rewrite (H1 (X - 1) C) by lia.
      symmetry.
      apply (box_conv_step (fun k => src_row k C)); try assumption; lia.
    - rewrite upd_other by exact E. apply H1; try assumption.
      assert (~ (x = X /\ c = C)) by (intros [-> ->]; now apply E).
      lia. }
  intros x c Hx Hc Hlt. apply H3; try assumption. lia.
Qed.

(** One row of [img_mov_avg_h]: every pixel of the destination row holds
    the box convolution of the source row. *)
Lemma mov_avg_row_filtered (m : mem) :
  filtered_upto src_row base w n w 0 (mov_avg_row src_row base w n m).
Proof.
  unfold mov_avg_row. cbv zeta.
  apply third_loop.
  intros x c Hx Hc Hlt. assert (x = 0) by lia. subst x.
  rewrite (second_loop _ (first_loop m) c Hc).
  replace (c <? 0) with false by (symmetry; apply Z.ltb_ge; lia).
  symmetry. apply (box_conv_first (fun k => src_row k c)); assumption.
Qed.

(** The cells below the row are left as they are. *)
Lemma mov_avg_row_below (m : mem) (j : Z) :
  j < base -> mov_avg_row src_row base w n m j = m j.
Proof.
  destruct (radius_div n Hn) as [_ Hp]. intros Hj.
  unfold mov_avg_row. cbv zeta.
  assert (Hc : forall (f : Z -> mem -> Z) (v : Z -> mem -> Q) (m0 : mem),
             (forall c m1, 0 <= c < 3 -> base <= f c m1) ->
             (forall i, i < base -> m0 i = m i) ->
             forall i, i < base ->
               for_range 0 3 (fun c m1 => upd m1 (f c m1) (v c m1)) m0 i = m i).
  { intros f v m0 Hf H0.
    apply (for_range_ind (fun (_ : Z) m' => forall i, i < base -> m' i = m i));
      [lia | exact H0 |].
    intros C m1 HC H1 i Hi. rewrite upd_other; [now apply H1 |].
    specialize (Hf C m1 HC). lia. }
  revert j Hj.
  apply (for_range_ind (fun (_ : Z) m' => forall i, i < base -> m' i = m i));
    [exact Hw | |].
  - apply (for_range_ind (fun (_ : Z) m' => forall i, i < base -> m' i = m i));
      [lia | |].
    + apply (Hc (fun c _ => d 0 c) (fun c _ => src_row 0 c * inject_Z q * a)%Q);
        [intros c m1 Hc0; lia | reflexivity].
    + intros X m0 HX H0.
      apply (Hc (fun c _ => d 0 c) (fun c m1 => m1 (d 0 c) + a * src_row X c)%Q);
        [intros c m1 Hc0; lia | exact H0].
  - intros X m0 HX H0.
    apply (Hc (fun c _ => d X c)
             (fun c m1 => m1 (d (X - 1) c) + a * src_row (MIN (X + p) (w - 1)) c
                          - a * src_row (MAX (X - q) 0) c)%Q);
      [intros c m1 Hc0; lia | exact H0].
Qed.

End MovAvgRow.

Section MovAvg.
Variable malloc : Z -> mem.

(** When the window is not wider than the row allows ([n < 2 * width], so
    that its right half fits at the first pixel), every channel of every
    pixel of the result of [img_mov_avg_h] is the box convolution of its
    row. *)
Theorem img_mov_avg_h_box_conv (src dst : img) (n x y c : Z) :
  1 <= n -> n < 2 * width src ->
  0 <= x < width src -> 0 <= y < height src -> 0 <= c < 3 ->
  (pixel_at (img_mov_avg_h malloc src dst n) x y c
   == box_conv (fun k => pixel_at src k y c) (width src) n x)%Q.
Proof.
  intros Hn Hfit Hx Hy Hc.
  assert (Hw : 1 <= width src) by lia.
  pose proof (radius_fits _ _ Hn Hfit) as Hq.
  unfold pixel_at at 1. unfold img_mov_avg_h. cbv zeta.
  destruct (img_set_size_dims malloc dst (width src) (height src)) as (_ & _ & Es).
  cbn [stride set_pixels]. rewrite px_set_pixels. rewrite Es.
  set (w := width src) in *.
  set (rows := fun (Y : Z) (m : mem) =>
    forall x y c, 0 <= x < w -> 0 <= y < Y -> 0 <= c < 3 ->
      (m (3 * w * y + 3 * x + c)%Z
       == box_conv (fun k => pixel_at src k y c) w n x)%Q).
  cut (rows (height src)
         (for_range 0 (height src)
            (fun y0 : Z =>
             mov_avg_row (fun x0 c0 : Z => px src (stride src * y0 + 3 * x0 + c0))
               (3 * w * y0) w n)
            (px (img_set_size malloc dst w (height src))))).
  { intros H. apply H; assumption. }
  apply (for_range_ind rows); [lia | |].
  - intros x0 y0 c0 _ Hy0 _. lia.
  - intros Y m HY Hm x0 y0 c0 Hx0 Hy0 Hc0.
    destruct (Z.eq_dec y0 Y) as [->|Hne].
    + apply (mov_avg_row_filtered
               (fun x1 c1 => px src (stride src * Y + 3 * x1 + c1))
               (3 * w * Y) w n Hw Hn Hq m x0 c0); lia.
    + rewrite mov_avg_row_below by nia.
      apply Hm; lia.
Qed.

(** C1: an image of one column and two rows, the pixel of row 0 black
    (0) and the pixel of row 1 at 3, filtered with [n = 3]. The clamped
    window of row 0 holds three times the pixel 0 and its average is 0;
    the loop that sums [src_row[1] .. src_row[q-1]] for the first pixel
    does not clamp, reads the pixel of row 1 for [src_row[1]] and stores
    [(1/3) * 3 = 1]. *)
Theorem img_mov_avg_h_narrow_row :
  let src := mk_img 1 2 3 true 24 (Some (fun i => if i <? 3 then 0 else 3)%Q) in
  (box_conv (fun k => pixel_at src k 0 0) (width src) 3 0 == 0)%Q
  /\ (pixel_at (img_mov_avg_h malloc src img_local 3) 0 0 0 == 1)%Q
  /\ ~ (pixel_at (img_mov_avg_h malloc src img_local 3) 0 0 0
        == box_conv (fun k => pixel_at src k 0 0) (width src) 3 0)%Q.
Proof.
  cbv zeta. repeat split; vm_compute; congruence.
Qed.

End MovAvg.

(** X17: with [n < 2 * w] every index read in a row is an index of the
    row. *)
Lemma mov_avg_reads_in_row (w n : Z) :
  1 <= n -> n < 2 * w ->
  Forall (fun i => 0 <= i <= w - 1) (mov_avg_reads w n).
Proof.
  intros Hn Hfit. pose proof (radius_fits _ _ Hn Hfit) as Hq.
  destruct (radius_div n Hn) as [_ Hp].
  unfold mov_avg_reads. cbv zeta.
  apply Forall_app. split; [| apply Forall_app; split].
  - constructor; [lia | constructor].
  - apply (for_range_ind (fun (_ : Z) l => Forall (fun i => 0 <= i <= w - 1) l));
      [lia | constructor |].
    intros x l Hx Hl. apply Forall_app. split; [exact Hl |].
    constructor; [lia | constructor].
  - apply (for_range_ind (fun (_ : Z) l => Forall (fun i => 0 <= i <= w - 1) l));
      [lia | constructor |].
    intros x l Hx Hl. apply Forall_app. split; [exact Hl |].
    rewrite MIN_min, MAX_max.
    constructor; [lia | constructor; [lia | constructor]].
Qed.

Section Reads.
Variables src_row src_row' : Z -> Z -> Q.
Variables base w n : Z.
Hypothesis Hsame :
  forall x c, In x (mov_avg_reads w n) -> src_row x c = src_row' x c.

Lemma reads_zero : In 0 (mov_avg_reads w n).
Proof. unfold mov_avg_reads. cbv zeta. apply in_or_app. left. now left. Qed.

Lemma reads_first (x : Z) :
  1 <= x < Z.quot (n - 1) 2 + 1 -> In x (mov_avg_reads w n).
Proof.
  intros Hx. unfold mov_avg_reads. cbv zeta.
  apply in_or_app. right. apply in_or_app. left.
  apply (for_range_collect (fun x => [x]) 1 _ x x Hx). now left.
Qed.

Lemma reads_recursion (x : Z) :
  1 <= x < w ->
  In (MIN (x + Z.quot (n - 1) 2) (w - 1)) (mov_avg_reads w n)
  /\ In (MAX (x - (Z.quot (n - 1) 2 + 1)) 0) (mov_avg_reads w n).
Proof.
  intros Hx. unfold mov_avg_reads. cbv zeta.
  split; apply in_or_app; right; apply in_or_app; right;
    apply (for_range_collect
             (fun x => [MIN (x + Z.quot (n - 1) 2) (w - 1);
                        MAX (x - (Z.quot (n - 1) 2 + 1)) 0]) 1 w x _ Hx).
  - now left.
  - right. now left.
Qed.

(** X18: [mov_avg_reads] lists every index at which [mov_avg_row] reads
    the source row: two rows that agree there are filtered alike. *)
Lemma mov_avg_row_reads (m : mem) (j : Z) :
  mov_avg_row src_row base w n m j = mov_avg_row src_row' base w n m j.
Proof.
  revert j. unfold mov_avg_row. cbv zeta.
  apply (for_range_rel (fun m1 m2 : mem => forall j, m1 j = m2 j)).
  - apply (for_range_rel (fun m1 m2 : mem => forall j, m1 j = m2 j)).
    + apply (for_range_rel (fun m1 m2 : mem => forall j, m1 j = m2 j));
        [reflexivity |].
      intros c m1 m2 Hc H j. unfold upd. rewrite H.
      now rewrite (Hsame 0 c reads_zero).
    + intros x m1 m2 Hx H.
      apply (for_range_rel (fun m1 m2 : mem => forall j, m1 j = m2 j));
        [exact H |].
      intros c m3 m4 Hc H' j. unfold upd. rewrite !H'.
      now rewrite (Hsame x c (reads_first x Hx)).
  - intros x m1 m2 Hx H.
    apply (for_range_rel (fun m1 m2 : mem => forall j, m1 j = m2 j));
      [exact H |].
    intros c m3 m4 Hc H' j. cbv zeta. unfold upd. rewrite !H'.
    destruct (reads_recursion x Hx) as [Hhi Hlo].
    now rewrite (Hsame _ c Hhi), (Hsame _ c Hlo).
Qed.

End Reads.

(** C10: for a row of width 1 and [n = 3] ([q = 2]) the loop for the first
    pixel reads [src_row[1]], past the only valid index 0. *)
Theorem mov_avg_reads_narrow_row :
  mov_avg_reads 1 3 = [0; 1]
  /\ exists i, In i (mov_avg_reads 1 3) /\ ~ (0 <= i <= 1 - 1).
Proof.
  split; [reflexivity |]. exists 1. split; [| lia].
  change (In 1 [0; 1]). right. left. reflexivity.
Qed.

(** * Further properties *)

(** ** Pixel buffers *)

Section BufferProperties.
Variable malloc : Z -> mem.

(** Without overflow the size computed by [img_set_size] is the number of
    bytes of the pixels. *)
Lemma size_no_overflow (w h : Z) :
  0 <= 4 * 3 * w * h <= INT_MAX ->
  to_size_t (to_int (to_size_t (4 * 3 * w * h))) = 4 * 3 * w * h.
Proof.
  unfold INT_MAX, to_size_t, to_int. intros H.
  rewrite (Z.mod_small (4 * 3 * w * h)) by lia.
  rewrite (Z.mod_small (4 * 3 * w * h + 2 ^ 31)) by lia.
  replace (4 * 3 * w * h + 2 ^ 31 - 2 ^ 31) with (4 * 3 * w * h) by lia.
  apply Z.mod_small. lia.
Qed.

Lemma img_set_size_alloc (im : img) (w h : Z) :
  0 <= 4 * 3 * w * h <= INT_MAX ->
  pixels (img_set_size malloc im w h) <> None
  /\ 4 * 3 * w * h <= alloc_size (img_set_size malloc im w h).
Proof.
  intros H. unfold img_set_size. rewrite (size_no_overflow w h H).
  destruct (pixels im) as [m|] eqn:E.
  - destruct (Z.gtb_spec (4 * 3 * w * h) (alloc_size im));
      cbn [pixels alloc_size].
    + split; [discriminate | lia].
    + split; [discriminate | lia].
  - cbn [pixels alloc_size]. split; [discriminate | lia].
Qed.

(** X1: when the size in bytes of the pixels fits an [int]
    ([12 * w * h <= INT_MAX]), after [img_set_size] the four bytes of every
    channel of every pixel lie within the [alloc_size] bytes that the image
    records for its block, whether the block is new or kept. *)
Theorem img_set_size_fits (im : img) (w h x y c : Z) :
  4 * 3 * w * h <= INT_MAX ->
  0 <= x < w -> 0 <= y < h -> 0 <= c < 3 ->
  0 <= stride (img_set_size malloc im w h) * y + 3 * x + c
  /\ 4 * (stride (img_set_size malloc im w h) * y + 3 * x + c + 1)
     <= alloc_size (img_set_size malloc im w h).
Proof.
  intros Hfit Hx Hy Hc.
  assert (Hsize : 0 <= 4 * 3 * w * h <= INT_MAX) by (split; [nia | exact Hfit]).
  destruct (img_set_size_alloc im w h Hsize) as [_ Ha].
  destruct (img_set_size_dims malloc im w h) as (_ & _ & ->).
  split; [nia |].
  assert (3 * w * y + 3 * x + c + 1 <= 3 * w * h) by nia.
  lia.
Qed.

(** X2: when the sizes are not negative and the size in bytes of the first
    fits an [int], a second [img_set_size] to a size with no more pixels
    keeps the block of the first and the size recorded for it: no
    allocation is made when the image already fits. *)
Theorem img_set_size_reuses_block (im : img) (w h w' h' : Z) :
  0 <= w' -> 0 <= h' -> w' * h' <= w * h -> 4 * 3 * w * h <= INT_MAX ->
  pixels (img_set_size malloc (img_set_size malloc im w h) w' h')
  = pixels (img_set_size malloc im w h)
  /\ alloc_size (img_set_size malloc (img_set_size malloc im w h) w' h')
     = alloc_size (img_set_size malloc im w h)
  /\ width (img_set_size malloc (img_set_size malloc im w h) w' h') = w'
  /\ height (img_set_size malloc (img_set_size malloc im w h) w' h') = h'
  /\ stride (img_set_size malloc (img_set_size malloc im w h) w' h') = 3 * w'.
Proof.
  intros Hw' Hh' Hle Hfit.
  assert (Hsize : 0 <= 4 * 3 * w * h <= INT_MAX) by nia.
  assert (Hsize' : 0 <= 4 * 3 * w' * h' <= INT_MAX) by nia.
  destruct (img_set_size_alloc im w h Hsize) as [Hp Ha].
  set (im1 := img_set_size malloc im w h) in *.
  unfold img_set_size. rewrite (size_no_overflow w' h' Hsize').
  destruct (pixels im1) as [m|] eqn:E; [| now elim Hp].
  replace (4 * 3 * w' * h' >? alloc_size im1) with false
    by (symmetry; rewrite Z.gtb_ltb; apply Z.ltb_ge; nia).
  cbn [pixels alloc_size width height stride]. repeat split.
Qed.

(** X3: a pixel of a crop is the pixel of the source at the offset of the
    crop, and a crop of a crop is the crop at the sum of the offsets. *)
Theorem img_crop_pixels (src : img) (w1 h1 x1 y1 w2 h2 x2 y2 i j c : Z) :
  pixel_at (img_crop src w1 h1 x1 y1) i j c = pixel_at src (x1 + i) (y1 + j) c
  /\ pixel_at (img_crop (img_crop src w1 h1 x1 y1) w2 h2 x2 y2) i j c
     = pixel_at (img_crop src w2 h2 (x1 + x2) (y1 + y2)) i j c.
Proof.
  unfold pixel_at, img_crop, px, shift. cbn [pixels stride].
  split; f_equal; ring.
Qed.

Lemma img_init_dims (im : img) (w h : Z) :
  width (img_init malloc im w h) = w
  /\ height (img_init malloc im w h) = h
  /\ stride (img_init malloc im w h) = 3 * w.
Proof. unfold img_init. apply img_set_size_dims. Qed.

End BufferProperties.

(** ** Fast gamma decode *)

Lemma byte_value_range (v : byte) : 0 <= Z.of_N (Byte.to_N v) <= 255.
Proof. pose proof (Byte.to_N_bounded v). lia. Qed.

Lemma byte_scaled_range (v : byte) :
  (0 <= inject_Z (Z.of_N (Byte.to_N v)) * (1 / 255) <= 1)%Q.
Proof.
  pose proof (byte_value_range v) as [H0 H1].
  apply inject_Z_nonneg in H0.
  assert (H2 : (inject_Z (Z.of_N (Byte.to_N v)) <= 255)%Q).
  { change 255%Q with (inject_Z 255). now rewrite <- Zle_Qle. }
  setoid_replace (1 / 255)%Q with (1 # 255)%Q by reflexivity.
  split; lra.
Qed.

Lemma gamma_decode_fast_range (v : byte) : (0 <= gamma_decode_fast v <= 1)%Q.
Proof.
  unfold gamma_decode_fast. cbv zeta.
  destruct (byte_scaled_range v) as [H0 H1]. split; nra.
Qed.

(** X4: the fast gamma decode maps the bytes into [0, 1], 0 to 0 and 255
    to 1, and is strictly increasing. *)
Theorem gamma_decode_fast_unit_interval :
  (forall v, 0 <= gamma_decode_fast v <= 1)%Q
  /\ (gamma_decode_fast x00 == 0)%Q
  /\ (gamma_decode_fast xff == 1)%Q
  /\ forall u v, (Byte.to_N u < Byte.to_N v)%N ->
       (gamma_decode_fast u < gamma_decode_fast v)%Q.
Proof.
  split; [exact gamma_decode_fast_range |].
  split; [reflexivity | split; [reflexivity |]].
  intros u v Huv. unfold gamma_decode_fast. cbv zeta.
  destruct (byte_scaled_range u) as [Hu0 Hu1].
  destruct (byte_scaled_range v) as [Hv0 Hv1].
  assert (H : (inject_Z (Z.of_N (Byte.to_N u))
               < inject_Z (Z.of_N (Byte.to_N v)))%Q).
  { rewrite <- Zlt_Qlt. lia. }
  apply (Qmult_lt_compat_r _ _ (1 / 255)) in H; [| reflexivity].
  generalize dependent (inject_Z (Z.of_N (Byte.to_N u)) * (1 / 255))%Q.
  generalize dependent (inject_Z (Z.of_N (Byte.to_N v)) * (1 / 255))%Q.
  intros b Hb0 Hb1 a Ha0 Ha1 Hab. nra.
Qed.

(** ** Gamma decode and encode of bitmaps *)

Section BitmapProperties.
Variable malloc : Z -> mem.
Variable gamma_decode_lut : byte -> Q.
Variable gamma_encode : Q -> byte.
Variable gamma_encode_fast : Q -> byte.
Variable malloc_bytes : Z -> bytes.

Lemma img_gamma_decode_bitmap_dims (im : img) (bitmap : list byte)
  (fmt : raw_image_format) (fast_gamma : bool) :
  width (img_gamma_decode_bitmap malloc gamma_decode_lut im bitmap fmt fast_gamma)
  = fmt_width fmt
  /\ height (img_gamma_decode_bitmap malloc gamma_decode_lut im bitmap fmt
               fast_gamma) = fmt_height fmt
  /\ stride (img_gamma_decode_bitmap malloc gamma_decode_lut im bitmap fmt
               fast_gamma) = 3 * fmt_width fmt.
Proof.
  unfold img_gamma_decode_bitmap. cbv zeta. cbn [width height stride set_pixels].
  apply img_init_dims.
Qed.

(** X5: for the layouts of three bytes a pixel, RGB and BGR,
    [img_gamma_decode_bitmap] returns a packed image of the size of the
    format, whose pixel [(x, y)] holds in channel [c] the decoded byte
    [rgb_offset[c]] of pixel [width * y + x] of the bitmap. *)
Theorem img_gamma_decode_bitmap_rgb_pixels (im : img) (bitmap : list byte)
  (fmt : raw_image_format) (fast_gamma : bool) (x y c : Z) :
  pixel_format_size (fmt_format fmt) = 3 ->
  0 <= x < fmt_width fmt -> 0 <= y < fmt_height fmt -> 0 <= c < 3 ->
  width (img_gamma_decode_bitmap malloc gamma_decode_lut im bitmap fmt fast_gamma)
  = fmt_width fmt
  /\ height (img_gamma_decode_bitmap malloc gamma_decode_lut im bitmap fmt
               fast_gamma) = fmt_height fmt
  /\ stride (img_gamma_decode_bitmap malloc gamma_decode_lut im bitmap fmt
               fast_gamma) = 3 * fmt_width fmt
  /\ pixel_at (img_gamma_decode_bitmap malloc gamma_decode_lut im bitmap fmt
                 fast_gamma) x y c
     = gamma_decode gamma_decode_lut fast_gamma
         (byte_at bitmap (3 * (fmt_width fmt * y + x)
                          + pixel_format_rgb_offset (fmt_format fmt) c)).
Proof.
  intros E Hx Hy Hc.
  destruct (img_gamma_decode_bitmap_dims im bitmap fmt fast_gamma)
    as (Ew & Eh & Es).
  repeat (split; [assumption |]).
  unfold pixel_at. rewrite Es.
  replace (3 * fmt_width fmt * y + 3 * x + c)
    with (pixel_format_size (fmt_format fmt) * (fmt_width fmt * y + x) + c)
    by (rewrite E; ring).
  rewrite img_gamma_decode_bitmap_cells; try lia; [| nia].
  now rewrite E.
Qed.

(** The two loops of [img_gamma_encode_to_bitmap]. *)
Lemma img_gamma_encode_to_bitmap_cells (im : img) (fast_gamma : bool)
  (y i : Z) :
  0 <= y < height im -> 0 <= i < 3 * width im ->
  img_gamma_encode_to_bitmap gamma_encode gamma_encode_fast malloc_bytes
    im fast_gamma (3 * width im * y + i)
  = (if fast_gamma then gamma_encode_fast else gamma_encode)
      (px im (stride im * y + i)).
Proof.
  intros Hy Hi. unfold img_gamma_encode_to_bitmap. cbv zeta.
  set (enc := if fast_gamma then gamma_encode_fast else gamma_encode).
  set (w3 := 3 * width im) in *.
  pose (upto := fun (Y I : Z) (b : bytes) =>
    forall y i, 0 <= y -> 0 <= i < w3 -> y < Y \/ (y = Y /\ i < I) ->
      b (w3 * y + i) = enc (px im (stride im * y + i))).
  cut (upto (height im) 0
         (for_range 0 (height im) (fun y =>
            for_range 0 w3 (fun i bitmap =>
              if fast_gamma
              then upd_byte bitmap (w3 * y + i)
                     (gamma_encode_fast (px im (stride im * y + i)))
              else upd_byte bitmap (w3 * y + i)
                     (gamma_encode (px im (stride im * y + i)))))
            (malloc_bytes (w3 * height im)))).
  { intros H. apply H; lia. }
  apply (for_range_ind (fun Y b => upto Y 0 b)); [lia | |].
  - intros y0 i0 H0 H1 H2. lia.
  - intros Y b HY Hb.
    assert (Hrow : upto Y w3
      (for_range 0 w3 (fun i bitmap =>
         if fast_gamma
         then upd_byte bitmap (w3 * Y + i)
                (gamma_encode_fast (px im (stride im * Y + i)))
         else upd_byte bitmap (w3 * Y + i)
                (gamma_encode (px im (stride im * Y + i)))) b)).
    { apply (for_range_ind (fun I b' => upto Y I b')); [lia | exact Hb |].
      intros I b1 HI H1 y0 i0 Hy0 Hi0 Hlt.
      assert (Hcell :
        (if fast_gamma
         then upd_byte b1 (w3 * Y + I)
                (gamma_encode_fast (px im (stride im * Y + I)))
         else upd_byte b1 (w3 * Y + I)
                (gamma_encode (px im (stride im * Y + I))))
        = upd_byte b1 (w3 * Y + I) (enc (px im (stride im * Y + I)))).
      { unfold enc. now destruct fast_gamma. }
      rewrite Hcell. unfold upd_byte.
      destruct (Z.eqb_spec (w3 * y0 + i0) (w3 * Y + I)) as [E|E].
      - assert (y0 = Y) by nia. subst y0. assert (i0 = I) by lia. now subst i0.
      - apply H1; try assumption.
        assert (~ (y0 = Y /\ i0 = I)) by (intros (-> & ->); now apply E).
        lia. }
    intros y0 i0 Hy0 Hi0 Hlt. apply Hrow; try assumption. lia.
Qed.

(** X6: the bitmap that [img_gamma_encode_to_bitmap] returns is packed,
    three bytes a pixel and [3 * width] bytes a row, whatever the stride
    of the image: byte [3 * (width * y + x) + c] is the encoded channel
    [c] of the pixel [(x, y)]. *)
Theorem img_gamma_encode_to_bitmap_packed (im : img) (fast_gamma : bool)
  (x y c : Z) :
  0 <= x < width im -> 0 <= y < height im -> 0 <= c < 3 ->
  img_gamma_encode_to_bitmap gamma_encode gamma_encode_fast malloc_bytes
    im fast_gamma (3 * (width im * y + x) + c)
  = (if fast_gamma then gamma_encode_fast else gamma_encode)
      (pixel_at im x y c).
Proof.
  intros Hx Hy Hc. unfold pixel_at.
  replace (3 * (width im * y + x) + c) with (3 * width im * y + (3 * x + c))
    by ring.
  rewrite img_gamma_encode_to_bitmap_cells by lia.
  f_equal. f_equal. ring.
Qed.

(** X7: when the gamma encode inverts the gamma decode on every byte,
    decoding an RGB bitmap and encoding the image gives back every byte
    of the bitmap. *)
Theorem img_gamma_decode_encode_bitmap (im : img) (bitmap : list byte)
  (w h : Z) (fast_gamma : bool) (k : Z) :
  (forall v,
     (if fast_gamma then gamma_encode_fast else gamma_encode)
       (gamma_decode gamma_decode_lut fast_gamma v) = v) ->
  0 < w -> 0 < h -> 0 <= k < 3 * w * h ->
  img_gamma_encode_to_bitmap gamma_encode gamma_encode_fast malloc_bytes
    (img_gamma_decode_bitmap malloc gamma_decode_lut im bitmap
       (mk_raw_image_format FORMAT_RGB w h) fast_gamma)
    fast_gamma k
  = byte_at bitmap k.
Proof.
  intros Hinv Hw Hh Hk.
  set (fmt := mk_raw_image_format FORMAT_RGB w h).
  set (r := img_gamma_decode_bitmap malloc gamma_decode_lut im bitmap fmt
              fast_gamma).
  destruct (img_gamma_decode_bitmap_dims im bitmap fmt fast_gamma)
    as (Ew & Eh & Es).
  fold r in Ew, Eh, Es. cbn [fmt fmt_width fmt_height] in Ew, Eh, Es.
  assert (Hdiv : k = 3 * w * (k / (3 * w)) + k mod (3 * w))
    by (apply Z.div_mod; lia).
  assert (Hmod : 0 <= k mod (3 * w) < 3 * w) by (apply Z.mod_pos_bound; lia).
  assert (Hy : 0 <= k / (3 * w) < h).
  { split; [apply Z.div_pos; lia |]. apply Z.div_lt_upper_bound; lia. }
  rewrite Hdiv at 1. rewrite <- Ew at 1.
  rewrite img_gamma_encode_to_bitmap_cells by (rewrite ?Ew, ?Eh; lia).
  rewrite Es, <- Hdiv.
  assert (Hcell : px r k = gamma_decode gamma_decode_lut fast_gamma (byte_at bitmap k)).
  { assert (Hd3 : k = 3 * (k / 3) + k mod 3) by (apply Z.div_mod; lia).
    assert (Hm3 : 0 <= k mod 3 < 3) by (apply Z.mod_pos_bound; lia).
    assert (Hk3 : 0 <= k / 3 < w * h).
    { split; [apply Z.div_pos; lia |]. apply Z.div_lt_upper_bound; lia. }
    rewrite Hd3 at 1.
    change 3 with (pixel_format_size (fmt_format fmt)) at 1.
    unfold r. rewrite img_gamma_decode_bitmap_cells;
      cbn [fmt fmt_width fmt_height fmt_format]; try lia.
    f_equal. f_equal. cbn [pixel_format_size].
    assert (Hoff : pixel_format_rgb_offset FORMAT_RGB (k mod 3) = k mod 3).
    { unfold pixel_format_rgb_offset.
      destruct (Z.eqb_spec (k mod 3) 0) as [->|]; [reflexivity |].
      destruct (Z.eqb_spec (k mod 3) 1) as [->|]; [reflexivity | lia]. }
    rewrite Hoff. lia. }
  rewrite Hcell. apply Hinv.
Qed.

End BitmapProperties.

(** ** Loops that fill a packed buffer *)

(** Three nested loops over the rows, the pixels and the channels that
    store [val x y c] at cell [3 * w * y + 3 * x + c]: afterwards every
    pixel holds its value and the cells past the last pixel are as
    before. *)
Lemma packed_fill (w h : Z) (val : Z -> Z -> Z -> Q) (m : mem) :
  0 <= w -> 0 <= h ->
  (forall x y c, 0 <= x < w -> 0 <= y < h -> 0 <= c < 3 ->
     for_range 0 h (fun y =>
       for_range 0 w (fun x =>
         for_range 0 3 (fun c m =>
           upd m (3 * w * y + 3 * x + c) (val x y c)))) m
       (3 * w * y + 3 * x + c)
     = val x y c).
Proof.
  intros Hw Hh.
  pose (upto := fun (Y X C : Z) (m' : mem) =>
    forall x y c, 0 <= x < w -> 0 <= y < h -> 0 <= c < 3 ->
      y < Y \/ (y = Y /\ (x < X \/ (x = X /\ c < C))) ->
      m' (3 * w * y + 3 * x + c) = val x y c).
  cut (upto h 0 0
         (for_range 0 h (fun y =>
            for_range 0 w (fun x =>
              for_range 0 3 (fun c m =>
                upd m (3 * w * y + 3 * x + c) (val x y c)))) m)).
  { intros H x y c Hx Hy Hc. apply H; try assumption. lia. }
  apply (for_range_ind (fun Y m' => upto Y 0 0 m')); [exact Hh | |].
  - intros x y c Hx Hy Hc Hlt. lia.
  - intros Y m0 HY H0.
    assert (Hrow : upto Y w 0
      (for_range 0 w (fun x =>
         for_range 0 3 (fun c m =>
           upd m (3 * w * Y + 3 * x + c) (val x Y c))) m0)).
    { apply (for_range_ind (fun X m' => upto Y X 0 m')); [exact Hw | exact H0 |].
      intros X m1 HX H1.
      assert (Hpix : upto Y X 3
        (for_range 0 3 (fun c m =>
           upd m (3 * w * Y + 3 * X + c) (val X Y c)) m1)).
      { apply (for_range_ind (fun C m' => upto Y X C m')); [lia | exact H1 |].
        intros C m2 HC H2 x y c Hx Hy Hc Hlt.
        destruct (Z.eq_dec (3 * w * y + 3 * x + c) (3 * w * Y + 3 * X + C))
          as [E|E].
        - assert (E' : 3 * (w * y + x) + c = 3 * (w * Y + X) + C) by lia.
          assert (Hyx : w * y + x = w * Y + X /\ c = C) by lia.
          destruct Hyx as [Hyx ->].
          assert (y = Y) by nia. subst y. assert (x = X) by lia. subst x.
          now rewrite upd_same.
        - rewrite upd_other by exact E. apply H2; try assumption.
          assert (~ (x = X /\ y = Y /\ c = C))
            by (intros (-> & -> & ->); now apply E).
          lia. }
      intros x y c Hx Hy Hc Hlt. apply Hpix; try assumption. lia. }
    intros x y c Hx Hy Hc Hlt. apply Hrow; try assumption. lia.
Qed.

(** ** Nearest-neighbour scaling *)

Section NearestProperties.
Variable malloc : Z -> mem.

Lemma img_interp_nearest_dims (src : img) (w h : Z) :
  width (img_interp_nearest malloc src w h) = w
  /\ height (img_interp_nearest malloc src w h) = h
  /\ stride (img_interp_nearest malloc src w h) = 3 * w.
Proof.
  unfold img_interp_nearest. cbv zeta. cbn [width height stride set_pixels].
  apply img_init_dims.
Qed.

Lemma img_interp_nearest_cells (src : img) (w h x y c : Z) :
  0 <= x < w -> 0 <= y < h -> 0 <= c < 3 ->
  pixel_at (img_interp_nearest malloc src w h) x y c
  = pixel_at src (x_src src (1 / inject_Z w) x) (y_src src (1 / inject_Z h) y) c.
Proof.
  intros Hx Hy Hc. unfold pixel_at at 1.
  destruct (img_interp_nearest_dims src w h) as (_ & _ & ->).
  unfold img_interp_nearest. cbv zeta. rewrite px_set_pixels.
  destruct (img_init_dims malloc img_local w h) as (-> & -> & ->).
  apply (packed_fill w h
           (fun x y c =>
              px src (stride src * y_src src (1 / inject_Z h) y
                      + 3 * x_src src (1 / inject_Z w) x + c)));
    try assumption; lia.
Qed.

Lemma nearest_index_same (i len : Z) :
  0 <= i -> 0 < len ->
  Qtrunc (inject_Z (i * len) * (1 / inject_Z len) + (1 # 2))%Q = i.
Proof.
  intros Hi Hl.
  assert (HL : (0 < inject_Z len)%Q) by now apply inject_Z_pos.
  assert (E : (inject_Z (i * len) * (1 / inject_Z len) == inject_Z i)%Q).
  { rewrite inject_Z_mult. field. intros C. rewrite C in HL.
    now apply Qlt_irrefl in HL. }
  apply inject_Z_nonneg in Hi.
  apply Z.le_antisymm.
  - apply Qtrunc_upper; lra.
  - apply Qtrunc_lower; [| lra].
    rewrite Zle_Qle. exact Hi.
Qed.

(** X9: scaling an image to its own size copies it. *)
Theorem img_interp_nearest_same_size (src : img) (x y c : Z) :
  0 <= x < width src -> 0 <= y < height src -> 0 <= c < 3 ->
  pixel_at (img_interp_nearest malloc src (width src) (height src)) x y c
  = pixel_at src x y c.
Proof.
  intros Hx Hy Hc. rewrite img_interp_nearest_cells by assumption.
  unfold x_src, y_src. now rewrite !nearest_index_same by lia.
Qed.

End NearestProperties.

(** ** The scaling and the fill crop in binary32 *)

(** A property that holds at every integer below [n], by enumeration. *)
Lemma below_forallb (P : Z -> bool) (n : nat) :
  forallb P (map Z.of_nat (seq 0 n)) = true ->
  forall x, 0 <= x < Z.of_nat n -> P x = true.
Proof.
  intros H x Hx. rewrite forallb_forall in H. apply H.
  apply in_map_iff. exists (Z.to_nat x). split; [lia |].
  apply in_seq. lia.
Qed.

Section Binary32Scaling.
Variable malloc : Z -> mem.

Lemma nearest_b32_dims (src : img) (w h : Z) :
  width (B32.img_interp_nearest malloc src w h) = w
  /\ height (B32.img_interp_nearest malloc src w h) = h
  /\ stride (B32.img_interp_nearest malloc src w h) = 3 * w.
Proof.
  unfold B32.img_interp_nearest. cbv zeta. cbn [width height stride set_pixels].
  apply img_init_dims.
Qed.

Lemma nearest_b32_cells (src : img) (w h x y c : Z) :
  0 <= x < w -> 0 <= y < h -> 0 <= c < 3 ->
  pixel_at (B32.img_interp_nearest malloc src w h) x y c
  = pixel_at src (B32.x_src src (B32.div B32.one (B32.of_int w)) x)
      (B32.y_src src (B32.div B32.one (B32.of_int h)) y) c.
Proof.
  intros Hx Hy Hc. unfold pixel_at at 1.
  destruct (nearest_b32_dims src w h) as (_ & _ & ->).
  unfold B32.img_interp_nearest. cbv zeta. rewrite px_set_pixels.
  destruct (img_init_dims malloc img_local w h) as (-> & -> & ->).
  apply (packed_fill w h
           (fun x y c =>
              px src (stride src
                      * B32.y_src src (B32.div B32.one (B32.of_int h)) y
                      + 3 * B32.x_src src (B32.div B32.one (B32.of_int w)) x
                      + c)));
    try assumption; lia.
Qed.

Lemma resize_fill_b32_cells (im : img) (g : B32.geometry)
  (crop_w crop_h crop_x crop_y x y c : Z) :
  B32.fill_crop (width im) (height im) g = (crop_w, crop_h, crop_x, crop_y) ->
  0 <= x < B32.geom_width g -> 0 <= y < B32.geom_height g -> 0 <= c < 3 ->
  pixel_at (B32.img_resize_fill malloc im g) x y c
  = pixel_at im
      (crop_x + B32.x_src (img_crop im crop_w crop_h crop_x crop_y)
                  (B32.div B32.one (B32.of_int (B32.geom_width g))) x)
      (crop_y + B32.y_src (img_crop im crop_w crop_h crop_x crop_y)
                  (B32.div B32.one (B32.of_int (B32.geom_height g))) y) c.
Proof.
  intros E Hx Hy Hc. unfold B32.img_resize_fill. rewrite E.
  rewrite nearest_b32_cells by assumption.
  unfold pixel_at, img_crop, px, shift. cbn [pixels stride].
  f_equal. ring.
Qed.



End Binary32Scaling.

(** C5: a 100x50 image filled into 40x40 at anchor 0.5 is cropped to the
    50x50 square at (25, 0), as the claim says. A 100x100 image filled
    into 300x1 at anchor 1 is cropped to the rectangle of width 100 and
    height 0 at row 100 (the height [100 / 300 + 0.5] truncates to 0): it
    has no aspect ratio and its row is not a row of the image, and every
    pixel of the result is then taken from the floats that follow the 100
    rows of the image. *)
Theorem fill_crop_empty_rectangle :
  B32.fill_crop 100 50 (B32.mk_geometry 40 40 B32.half) = (50, 50, 25, 0)
  /\ B32.fill_crop 100 100 (B32.mk_geometry 300 1 B32.one) = (100, 0, 0, 100)
  /\ forall (malloc : Z -> mem) (m : mem) (x c : Z),
       0 <= x < 300 -> 0 <= c < 3 ->
       exists i,
         0 <= i
         /\ pixel_at
              (B32.img_resize_fill malloc
                 (mk_img 100 100 300 true 120000 (Some m))
                 (B32.mk_geometry 300 1 B32.one)) x 0 c
            = m (300 * 100 + 3 * i + c).
Proof.
  split; [vm_compute; reflexivity |]. split; [vm_compute; reflexivity |].
  intros malloc m x c Hx Hc.
  set (im := mk_img 100 100 300 true 120000 (Some m)).
  set (g := B32.mk_geometry 300 1 B32.one).
  assert (E : B32.fill_crop (width im) (height im) g = (100, 0, 0, 100))
    by (vm_compute; reflexivity).
  set (column := fun x =>
         B32.to_int (B32.add_half (B32.to_double
           (B32.mul (B32.of_int (x * 100))
              (B32.div B32.one (B32.of_int 300)))))).
  exists (column x). split.
  - apply Z.leb_le.
    apply (below_forallb (fun x => 0 <=? column x) 300);
      [vm_compute; reflexivity | lia].
  - rewrite (resize_fill_b32_cells malloc im g 100 0 0 100 x 0 c E)
      by (cbn; lia).
    unfold pixel_at, im. cbn [px pixels stride].
    change (B32.y_src (img_crop (mk_img 100 100 300 true 120000 (Some m))
                         100 0 0 100)
              (B32.div B32.one (B32.of_int (B32.geom_height g))) 0)
      with 0.
    change (B32.x_src (img_crop (mk_img 100 100 300 true 120000 (Some m))
                         100 0 0 100)
              (B32.div B32.one (B32.of_int (B32.geom_width g))) x)
      with (column x).
    f_equal; lia.
Qed.


(** ** Halving *)

(** Three nested loops over [h] rows of stride [s], the first [w] pixels
    of a row and the channels: afterwards these pixels hold their values
    and every other cell is as before. *)
Lemma strided_fill (s w h : Z) (val : Z -> Z -> Z -> Q) (m : mem) :
  0 <= w -> 0 <= h -> 3 * w <= s ->
  (forall x y c, 0 <= x < w -> 0 <= y < h -> 0 <= c < 3 ->
     for_range 0 h (fun y =>
       for_range 0 w (fun x =>
         for_range 0 3 (fun c m =>
           upd m (s * y + 3 * x + c) (val x y c)))) m
       (s * y + 3 * x + c)
     = val x y c)
  /\ (forall k,
        (forall x y c, 0 <= x < w -> 0 <= y < h -> 0 <= c < 3 ->
           k <> s * y + 3 * x + c) ->
        for_range 0 h (fun y =>
          for_range 0 w (fun x =>
            for_range 0 3 (fun c m =>
              upd m (s * y + 3 * x + c) (val x y c)))) m k
        = m k).
Proof.
  intros Hw Hh Hs.
  pose (upto := fun (Y X C : Z) (m' : mem) =>
    (forall x y c, 0 <= x < w -> 0 <= y < h -> 0 <= c < 3 ->
       y < Y \/ (y = Y /\ (x < X \/ (x = X /\ c < C))) ->
       m' (s * y + 3 * x + c) = val x y c)
    /\ (forall k,
          (forall x y c, 0 <= x < w -> 0 <= y < h -> 0 <= c < 3 ->
             k <> s * y + 3 * x + c) ->
          m' k = m k)).
  cut (upto h 0 0
         (for_range 0 h (fun y =>
            for_range 0 w (fun x =>
              for_range 0 3 (fun c m =>
                upd m (s * y + 3 * x + c) (val x y c)))) m)).
  { intros [H1 H2]. split; [| exact H2].
    intros x y c Hx Hy Hc. apply H1; try assumption. lia. }
  apply (for_range_ind (fun Y m' => upto Y 0 0 m')); [exact Hh | |].
  - split; [| reflexivity]. intros x y c Hx Hy Hc Hlt. lia.
  - intros Y m0 HY H0.
    assert (Hrow : upto Y w 0
      (for_range 0 w (fun x =>
         for_range 0 3 (fun c m =>
           upd m (s * Y + 3 * x + c) (val x Y c))) m0)).
    { apply (for_range_ind (fun X m' => upto Y X 0 m')); [exact Hw | exact H0 |].
      intros X m1 HX H1.
      assert (Hpix : upto Y X 3
        (for_range 0 3 (fun c m =>
           upd m (s * Y + 3 * X + c) (val X Y c)) m1)).
      { apply (for_range_ind (fun C m' => upto Y X C m')); [lia | exact H1 |].
        intros C m2 HC [H2 F2]. split.
        - intros x y c Hx Hy Hc Hlt.
          destruct (Z.eq_dec (s * y + 3 * x + c) (s * Y + 3 * X + C)) as [E|E].
          + assert (y = Y) by nia. subst y.
            assert (x = X /\ c = C) as [-> ->] by lia.
            now rewrite upd_same.
          + rewrite upd_other by exact E. apply H2; try assumption.
            assert (~ (x = X /\ y = Y /\ c = C))
              by (intros (-> & -> & ->); now apply E).
            lia.
        - intros k Hk. rewrite upd_other by (apply Hk; lia).
          now apply F2. }
      destruct Hpix as [P1 P2]. split; [| exact P2].
      intros x y c Hx Hy Hc Hlt. apply P1; try assumption. lia. }
    destruct Hrow as [R1 R2]. split; [| exact R2].
    intros x y c Hx Hy Hc Hlt. apply R1; try assumption. lia.
Qed.

Section Halving.
Variable malloc : Z -> mem.

Lemma img_box2x2_dims (src dst : img) :
  width (img_box2x2 malloc src dst) = Z.quot (width src) 2
  /\ height (img_box2x2 malloc src dst) = Z.quot (height src) 2
  /\ stride (img_box2x2 malloc src dst) = 3 * Z.quot (width src) 2.
Proof.
  unfold img_box2x2. cbv zeta. cbn [width height stride set_pixels].
  apply img_set_size_dims.
Qed.


(** X13: since the loop over [x] runs to the height of the destination,
    [img_box2x2] leaves the pixels from column [height / 2] on as they
    are in the block of the destination. *)
Theorem img_box2x2_unfilled (src dst : img) (x y c : Z) :
  Z.quot (height src) 2 <= x < Z.quot (width src) 2 ->
  0 <= y < Z.quot (height src) 2 -> 0 <= c < 3 ->
  pixel_at (img_box2x2 malloc src dst) x y c
  = pixel_at
      (img_set_size malloc dst (Z.quot (width src) 2) (Z.quot (height src) 2))
      x y c.
Proof.
  intros Hx Hy Hc. unfold pixel_at.
  destruct (img_box2x2_dims src dst) as (_ & _ & ->).
  unfold img_box2x2. cbv zeta. rewrite px_set_pixels.
  destruct (img_set_size_dims malloc dst (Z.quot (width src) 2)
              (Z.quot (height src) 2)) as (_ & -> & ->).
  destruct (strided_fill (3 * Z.quot (width src) 2) (Z.quot (height src) 2)
              (Z.quot (height src) 2)
              (fun x y c =>
                 ((1 # 4)
                  * (0 + px src (stride src * y * 2 + 3 * (2 * x) + c)%Z
                     + px src (stride src * y * 2 + 3 * (2 * x + 1) + c)%Z
                     + px src (stride src * y * 2 + 1 + 3 * (2 * x) + c)%Z
                     + px src (stride src * y * 2 + 1 + 3 * (2 * x + 1) + c)%Z))%Q)
              (px (img_set_size malloc dst (Z.quot (width src) 2)
                     (Z.quot (height src) 2))))
    as [_ Hframe]; [lia | lia | lia |].
  apply Hframe. intros x' y' c' Hx' Hy' Hc' E.
  assert (y' = y) by nia. subst y'. lia.
Qed.

(** X14: [img_decimate] halves the width and the height [n] times. *)
Theorem img_decimate_dims (im : img) (n : Z) :
  0 <= n -> 0 <= width im -> 0 <= height im ->
  width (img_decimate malloc im n) = width im / 2 ^ n
  /\ height (img_decimate malloc im n) = height im / 2 ^ n.
Proof.
  intros Hn Hw Hh. unfold img_decimate. cbv zeta.
  apply (for_range_ind
           (fun i (sd : img * img) =>
              width (fst sd) = width im / 2 ^ i
              /\ height (fst sd) = height im / 2 ^ i)); [exact Hn | |].
  - cbn [fst]. now rewrite !Z.div_1_r.
  - intros i sd Hi [Ew Eh]. cbn [fst].
    destruct (img_box2x2_dims (fst sd) (snd sd)) as (-> & -> & _).
    rewrite Ew, Eh, Z.pow_add_r, Z.pow_1_r by lia.
    assert (0 < 2 ^ i) by (apply Z.pow_pos_nonneg; lia).
    rewrite !Z.quot_div_nonneg by (try lia; apply Z.div_pos; lia).
    now rewrite !Z.div_div by lia.
Qed.

End Halving.

(** ** More on the box convolution *)

Lemma sumQ_bounds (lo hi : Z) (f : Z -> Q) (l u : Q) :
  lo <= hi -> (forall k, lo <= k < hi -> (l <= f k <= u)%Q) ->
  (inject_Z (hi - lo) * l <= sumQ lo hi f <= inject_Z (hi - lo) * u)%Q.
Proof.
  intros Hle. revert hi Hle. apply (Z_up_ind (fun hi => _ -> _)).
  - intros _. rewrite sumQ_empty by lia. rewrite Z.sub_diag.
    change (inject_Z 0) with 0%Q. split; lra.
  - intros k Hk IH Hf. rewrite sumQ_last by lia.
    destruct IH as [IH1 IH2]; [intros; apply Hf; lia |].
    destruct (Hf k) as [Hl Hu]; [lia |].
    replace (k + 1 - lo) with ((k - lo) + 1) by lia.
    rewrite inject_Z_plus. change (inject_Z 1) with 1%Q.
    split; lra.
Qed.

Lemma clamp_range (k W : Z) : 1 <= W -> 0 <= clamp k 0 (W - 1) <= W - 1.
Proof. unfold clamp. lia. Qed.

(** The convolution only looks at the samples of the row. *)
Lemma box_conv_ext (row row' : Z -> Q) (W n x : Z) :
  1 <= W -> 1 <= n ->
  (forall k, 0 <= k <= W - 1 -> (row k == row' k)%Q) ->
  (box_conv row W n x == box_conv row' W n x)%Q.
Proof.
  intros HW Hn H. unfold box_conv.
  rewrite (sumQ_ext _ _ _ (fun k => row' (clamp k 0 (W - 1)))); [reflexivity |].
  intros k _. apply H. now apply clamp_range.
Qed.

(** For an odd [n] the convolution is an average of [n] samples of the
    row: it stays between the bounds of the row. *)
Lemma box_conv_range (row : Z -> Q) (W n x : Z) (l u : Q) :
  1 <= W -> 1 <= n -> Z.odd n = true ->
  (forall k, 0 <= k <= W - 1 -> (l <= row k <= u)%Q) ->
  (l <= box_conv row W n x <= u)%Q.
Proof.
  intros HW Hn Hodd H. unfold box_conv.
  assert (En : n = 2 * ((n - 1) / 2) + 1).
  { destruct (proj1 (Z.odd_spec n) Hodd) as [m Hm].
    replace ((n - 1) / 2) with m; [exact Hm |].
    rewrite Hm. replace (2 * m + 1 - 1) with (m * 2) by lia.
    now rewrite Z.div_mul by lia. }
  set (p := (n - 1) / 2) in *.
  destruct (sumQ_bounds (x - p) (x + p + 1)
              (fun k => row (clamp k 0 (W - 1))) l u) as [H1 H2].
  { assert (0 <= p) by (apply Z.div_pos; lia). lia. }
  { intros k _. apply H. now apply clamp_range. }
  replace (x + p + 1 - (x - p)) with n in H1, H2 by lia.
  assert (HN : (0 < inject_Z n)%Q) by (apply inject_Z_pos; lia).
  assert (Ha : (1 / inject_Z n * inject_Z n == 1)%Q) by now apply Qdiv_mult_cancel.
  assert (Ha0 : (0 < 1 / inject_Z n)%Q).
  { apply Qlt_shift_div_l; [exact HN | now rewrite Qmult_0_l]. }
  generalize dependent (sumQ (x - p) (x + p + 1)
                          (fun k => row (clamp k 0 (W - 1)))).
  generalize dependent (1 / inject_Z n)%Q.
  generalize dependent (inject_Z n).
  intros N HN a Ha Ha0 s H1 H2.
  assert (El : (a * (N * l) == l)%Q) by (rewrite Qmult_assoc, Ha; ring).
  assert (Eu : (a * (N * u) == u)%Q) by (rewrite Qmult_assoc, Ha; ring).
  split.
  - rewrite <- El. now apply Qmult_le_l.
  - rewrite <- Eu. now apply Qmult_le_l.
Qed.

Section MovAvgProperties.
Variable malloc : Z -> mem.

Lemma img_mov_avg_h_dims (src dst : img) (n : Z) :
  width (img_mov_avg_h malloc src dst n) = width src
  /\ height (img_mov_avg_h malloc src dst n) = height src
  /\ stride (img_mov_avg_h malloc src dst n) = 3 * width src.
Proof.
  unfold img_mov_avg_h. cbv zeta. cbn [width height stride set_pixels].
  apply img_set_size_dims.
Qed.

(** X15: for a kernel whose right half fits into a row ([n < 2 * width])
    [img_mov_avg_h] returns a packed image of the size of the source in
    which every channel of every pixel is the clamp-to-edge box
    convolution of its row. *)
Theorem img_mov_avg_h_filtered (src dst : img) (n : Z) :
  1 <= n -> n < 2 * width src ->
  width (img_mov_avg_h malloc src dst n) = width src
  /\ height (img_mov_avg_h malloc src dst n) = height src
  /\ stride (img_mov_avg_h malloc src dst n) = 3 * width src
  /\ forall x y c,
       0 <= x < width src -> 0 <= y < height src -> 0 <= c < 3 ->
       (pixel_at (img_mov_avg_h malloc src dst n) x y c
        == box_conv (fun k => pixel_at src k y c) (width src) n x)%Q.
Proof.
  intros Hn Hfit.
  destruct (img_mov_avg_h_dims src dst n) as (Ew & Eh & Es).
  repeat (split; [assumption |]).
  intros x y c Hx Hy Hc. now apply img_mov_avg_h_box_conv.
Qed.

(** X16: in exact arithmetic, for an odd [n < 2 * width], the filter keeps
    the pixels within the bounds of the source: an image in [[l, u]] is
    filtered into an image in [[l, u]]. (In binary32 the running sum keeps
    a residue of rounding that can leave the bounds: X24.) *)
Theorem img_mov_avg_h_range (src dst : img) (n : Z) (l u : Q) :
  1 <= n -> Z.odd n = true -> n < 2 * width src ->
  (forall x y c, 0 <= x < width src -> 0 <= y < height src -> 0 <= c < 3 ->
     (l <= pixel_at src x y c <= u)%Q) ->
  forall x y c, 0 <= x < width src -> 0 <= y < height src -> 0 <= c < 3 ->
    (l <= pixel_at (img_mov_avg_h malloc src dst n) x y c <= u)%Q.
Proof.
  intros Hn Hodd Hfit Hsrc x y c Hx Hy Hc.
  assert (Hw : 1 <= width src) by lia.
  rewrite img_mov_avg_h_box_conv by assumption.
  apply box_conv_range; [exact Hw | exact Hn | exact Hodd |].
  intros k Hk. apply Hsrc; lia.
Qed.

End MovAvgProperties.

(** ** The vertical moving average *)

Section MovAvgCol.
Variable src_col : Z -> Q.
Variables src_stride dst_stride col h n : Z.
Hypothesis Hh : 1 <= h.
Hypothesis Hn : 1 <= n.
Hypothesis Hq : Z.quot (n - 1) 2 + 1 <= h.
Hypothesis Hds : 3 <= dst_stride.
Local Abbreviation a := (1 / inject_Z n)%Q.
Local Abbreviation p := (Z.quot (n - 1) 2).
Local Abbreviation q := (Z.quot (n - 1) 2 + 1).
Local Abbreviation column c := (fun k : Z => src_col (k * src_stride + c)%Z).

Lemma col_index_inj (y c y' c' : Z) :
  0 <= c < 3 -> 0 <= c' < 3 ->
  col + (y * dst_stride + c) = col + (y' * dst_stride + c') ->
  y = y' /\ c = c'.
Proof. intros Hc Hc' E. assert (y = y') by nia. subst y'. lia. Qed.

(** One column of [img_mov_avg_v]: every pixel of the destination column
    holds the box convolution of the source column. *)
Lemma mov_avg_col_filtered (m : mem) (y c : Z) :
  0 <= y < h -> 0 <= c < 3 ->
  (mov_avg_col src_col src_stride dst_stride col h n m
     (col + (y * dst_stride + c))%Z
   == box_conv (column c) h n y)%Q.
Proof.
  destruct (radius_div n Hn) as [_ Hp].
  pose (P1 := fun (C : Z) (m' : mem) =>
    forall c, 0 <= c < C -> (m' (col + c)%Z == src_col c * inject_Z q * a)%Q).
  pose (P2 := fun (X C : Z) (m' : mem) =>
    forall c, 0 <= c < 3 ->
      (m' (col + c)%Z
       == src_col c * inject_Z q * a
          + a * sumQ 1 (if c <? C then X + 1 else X) (column c))%Q).
  pose (P3 := fun (Y C : Z) (m' : mem) =>
    forall y c, 0 <= y -> 0 <= c < 3 -> y < Y \/ (y = Y /\ c < C) ->
      (m' (col + (y * dst_stride + c))%Z == box_conv (column c) h n y)%Q).
  cut (P3 h 0 (mov_avg_col src_col src_stride dst_stride col h n m)).
  { intros H Hy Hc. apply H; lia. }
  unfold mov_avg_col. cbv zeta.
  apply (for_range_ind (fun Y m' => P3 Y 0 m')); [exact Hh | |].
  - (* the first pixel of the column *)
    assert (H2 : P2 q 0
      (for_range 1 q
         (fun y0 =>
          for_range 0 3
            (fun c0 m0 =>
             upd m0 (col + c0)%Z
               (m0 (col + c0)%Z + a * src_col (y0 * src_stride + c0)%Z)%Q))
         (for_range 0 3
            (fun c0 m0 => upd m0 (col + c0)%Z (src_col c0 * inject_Z q * a)%Q)
            m))).
    { apply (for_range_ind (fun X m' => P2 X 0 m')); [lia | |].
      - assert (H1 : P1 3
          (for_range 0 3
             (fun c0 m0 => upd m0 (col + c0)%Z (src_col c0 * inject_Z q * a)%Q)
             m)).
        { apply (for_range_ind (fun C m' => P1 C m')); [lia | |].
          - intros c0 Hc0. lia.
          - intros C m0 HC H0 c0 Hc0.
            destruct (Z.eq_dec c0 C) as [->|Hne].
            + rewrite upd_same. reflexivity.
            + rewrite upd_other by lia. apply H0. lia. }
        intros c0 Hc0. rewrite (H1 c0) by exact Hc0.
        replace (c0 <? 0) with false by (symmetry; apply Z.ltb_ge; lia).
        rewrite sumQ_empty by lia. ring.
      - intros X m0 HX H0.
        assert (H3 : P2 X 3
          (for_range 0 3
             (fun c0 m1 =>
              upd m1 (col + c0)%Z
                (m1 (col + c0)%Z + a * src_col (X * src_stride + c0)%Z)%Q) m0)).
        { apply (for_range_ind (fun C m' => P2 X C m')); [lia | exact H0 |].
          intros C m1 HC H1 c0 Hc0.
          destruct (Z.eq_dec c0 C) as [->|Hne].
          - rewrite upd_same. rewrite (H1 C) by lia.
            rewrite Z.ltb_irrefl.
            replace (C <? C + 1) with true by (symmetry; apply Z.ltb_lt; lia).
            rewrite sumQ_last by lia. ring.
          - rewrite upd_other by lia.
            rewrite (H1 c0) by lia.
            replace (c0 <? C + 1) with (c0 <? C); [reflexivity |].
            destruct (Z.ltb_spec c0 C), (Z.ltb_spec c0 (C + 1));
              lia || reflexivity. }
        intros c0 Hc0. rewrite (H3 c0) by exact Hc0.
        replace (c0 <? 3) with true by (symmetry; apply Z.ltb_lt; lia).
        replace (c0 <? 0) with false by (symmetry; apply Z.ltb_ge; lia).
        reflexivity. }
    intros y0 c0 Hy0 Hc0 Hlt. assert (y0 = 0) by lia. subst y0.
    replace (col + (0 * dst_stride + c0))%Z with (col + c0)%Z by lia.
    rewrite (H2 c0 Hc0).
    replace (c0 <? 0) with false by (symmetry; apply Z.ltb_ge; lia).
    rewrite (box_conv_first (column c0) h n Hn Hq).
    replace (0 * src_stride + c0) with c0 by lia. reflexivity.
  - (* the recursion *)
    intros Y m0 HY H0.
    assert (H3 : P3 Y 3
      (for_range 0 3
         (fun c0 m1 =>
          let hi := MIN (Y + p) (h - 1) in
          let lo := MAX (Y - q) 0 in
          upd m1 (col + (Y * dst_stride + c0))%Z
            (m1 (col + ((Y - 1) * dst_stride + c0))%Z
             + a * src_col (hi * src_stride + c0)%Z
             - a * src_col (lo * src_stride + c0)%Z)%Q) m0)).
    { apply (for_range_ind (fun C m' => P3 Y C m')); [lia | exact H0 |].
      intros C m1 HC H1 y0 c0 Hy0 Hc0 Hlt. cbv zeta.
      destruct (Z.eq_dec (col + (y0 * dst_stride + c0))%Z
                  (col + (Y * dst_stride + C))%Z) as [E|E].
      - apply col_index_inj in E; try lia. destruct E as [-> ->].
        rewrite upd_same. rewrite (H1 (Y - 1) C) by lia.
        symmetry.
        apply (box_conv_step (column C)); try assumption; lia.
      - rewrite upd_other by exact E. apply H1; try assumption.
        assert (~ (y0 = Y /\ c0 = C)) by (intros [-> ->]; now apply E).
        lia. }
    intros y0 c0 Hy0 Hc0 Hlt. apply H3; try assumption. lia.
Qed.

(** The cells that are not in the column are left as they are. *)
Lemma mov_avg_col_frame (m : mem) (j : Z) :
  (forall y c, 0 <= y < h -> 0 <= c < 3 -> j <> col + (y * dst_stride + c)) ->
  mov_avg_col src_col src_stride dst_stride col h n m j = m j.
Proof.
  destruct (radius_div n Hn) as [_ Hp]. intros Hj.
  assert (Hj0 : forall c, 0 <= c < 3 -> j <> col + c).
  { intros c Hc. specialize (Hj 0 c ltac:(lia) Hc). lia. }
  unfold mov_avg_col. cbv zeta.
  assert (Hc : forall (f : Z -> mem -> Z) (v : Z -> mem -> Q) (m0 : mem),
             (forall c m1, 0 <= c < 3 -> j <> f c m1) ->
             m0 j = m j ->
             for_range 0 3 (fun c m1 => upd m1 (f c m1) (v c m1)) m0 j = m j).
  { intros f v m0 Hf H0.
    apply (for_range_ind (fun (_ : Z) m' => m' j = m j)); [lia | exact H0 |].
    intros C m1 HC H1. rewrite upd_other; [exact H1 |].
    now apply Hf. }
  apply (for_range_ind (fun (_ : Z) m' => m' j = m j)); [exact Hh | |].
  - apply (for_range_ind (fun (_ : Z) m' => m' j = m j)); [lia | |].
    + apply (Hc (fun c _ => col + c) (fun c _ => src_col c * inject_Z q * a)%Q);
        [intros c m1 Hc0; now apply Hj0 | reflexivity].
    + intros X m0 HX H0.
      apply (Hc (fun c _ => col + c)
               (fun c m1 => m1 (col + c)%Z + a * src_col (X * src_stride + c)%Z)%Q);
        [intros c m1 Hc0; now apply Hj0 | exact H0].
  - intros X m0 HX H0.
    apply (Hc (fun c _ => col + (X * dst_stride + c))
             (fun c m1 =>
                m1 (col + ((X - 1) * dst_stride + c))%Z
                + a * src_col (MIN (X + p) (h - 1) * src_stride + c)%Z
                - a * src_col (MAX (X - q) 0 * src_stride + c)%Z)%Q);
      [intros c m1 Hc0; apply Hj; lia | exact H0].
Qed.

End MovAvgCol.

Section MovAvgV.
Variable malloc : Z -> mem.

Lemma img_mov_avg_v_dims (src dst : img) (n : Z) :
  width (img_mov_avg_v malloc src dst n) = width src
  /\ height (img_mov_avg_v malloc src dst n) = height src
  /\ stride (img_mov_avg_v malloc src dst n) = 3 * width src.
Proof.
  unfold img_mov_avg_v. cbv zeta. cbn [width height stride set_pixels].
  apply img_set_size_dims.
Qed.

Lemma img_mov_avg_v_box_conv (src dst : img) (n x y c : Z) :
  1 <= n -> n < 2 * height src ->
  0 <= x < width src -> 0 <= y < height src -> 0 <= c < 3 ->
  (pixel_at (img_mov_avg_v malloc src dst n) x y c
   == box_conv (fun k => pixel_at src x k c) (height src) n y)%Q.
Proof.
  intros Hn Hfit Hx Hy Hc.
  assert (Hh : 1 <= height src) by lia.
  pose proof (radius_fits _ _ Hn Hfit) as Hq.
  unfold pixel_at at 1.
  destruct (img_mov_avg_v_dims src dst n) as (_ & _ & ->).
  unfold img_mov_avg_v. cbv zeta. rewrite px_set_pixels.
  destruct (img_set_size_dims malloc dst (width src) (height src))
    as (_ & _ & ->).
  set (w := width src) in *. set (h := height src) in *.
  set (cols := fun (X : Z) (m : mem) =>
    forall x y c, 0 <= x < X -> 0 <= y < h -> 0 <= c < 3 ->
      (m (3 * x + (y * (3 * w) + c))%Z
       == box_conv (fun k => pixel_at src x k c) h n y)%Q).
  cut (cols w
         (for_range 0 w
            (fun x0 : Z =>
             mov_avg_col (shift (px src) (3 * x0)) (stride src) (3 * w)
               (3 * x0) h n)
            (px (img_set_size malloc dst w h)))).
  { intros H. replace (3 * w * y + 3 * x + c) with (3 * x + (y * (3 * w) + c))
      by ring. apply H; assumption. }
  apply (for_range_ind cols); [lia | |].
  - intros x0 y0 c0 Hx0 _ _. lia.
  - intros X m HX Hm x0 y0 c0 Hx0 Hy0 Hc0.
    destruct (Z.eq_dec x0 X) as [->|Hne].
    + rewrite (mov_avg_col_filtered (shift (px src) (3 * X)) (stride src)
                 (3 * w) (3 * X) h n Hh Hn Hq ltac:(lia) m y0 c0 Hy0 Hc0).
      apply box_conv_ext; try assumption.
      intros k Hk. unfold shift, pixel_at.
      replace (3 * X + (k * stride src + c0))
        with (stride src * k + 3 * X + c0) by ring.
      reflexivity.
    + rewrite (mov_avg_col_frame (shift (px src) (3 * X)) (stride src)
                 (3 * w) (3 * X) h n Hh Hn).
      * apply Hm; try assumption. lia.
      * intros y1 c1 Hy1 Hc1 E.
        assert (E' : 3 * (w * y0 + x0) + c0 = 3 * (w * y1 + X) + c1) by lia.
        assert (Hxy : w * y0 + x0 = w * y1 + X) by lia.
        assert (y0 = y1) by nia. subst y1. lia.
Qed.

(** X19: for a kernel whose lower half fits into a column
    ([n < 2 * height]) [img_mov_avg_v] returns a packed image of the size
    of the source in which every channel of every pixel is the
    clamp-to-edge box convolution of its column; the source is addressed by
    its stride. *)
Theorem img_mov_avg_v_filtered (src dst : img) (n : Z) :
  1 <= n -> n < 2 * height src ->
  width (img_mov_avg_v malloc src dst n) = width src
  /\ height (img_mov_avg_v malloc src dst n) = height src
  /\ stride (img_mov_avg_v malloc src dst n) = 3 * width src
  /\ forall x y c,
       0 <= x < width src -> 0 <= y < height src -> 0 <= c < 3 ->
       (pixel_at (img_mov_avg_v malloc src dst n) x y c
        == box_conv (fun k => pixel_at src x k c) (height src) n y)%Q.
Proof.
  intros Hn Hfit.
  destruct (img_mov_avg_v_dims src dst n) as (Ew & Eh & Es).
  repeat (split; [assumption |]).
  intros x y c Hx Hy Hc. now apply img_mov_avg_v_box_conv.
Qed.

(** X20: transposing, filtering the rows and transposing back, as [main]
    does, gives the image that [img_mov_avg_v] computes: on a packed image
    the two agree on every channel of every pixel. *)
Theorem img_transpose_mov_avg_h_is_mov_avg_v
  (src d1 d2 d3 d4 : img) (n x y c : Z) :
  stride src = 3 * width src ->
  1 <= n -> n < 2 * height src ->
  0 <= x < width src -> 0 <= y < height src -> 0 <= c < 3 ->
  (pixel_at
     (img_transpose malloc
        (img_mov_avg_h malloc (img_transpose malloc src d1) d2 n) d3) x y c
   == pixel_at (img_mov_avg_v malloc src d4 n) x y c)%Q.
Proof.
  intros Hs Hn Hfit Hx Hy Hc.
  set (t := img_transpose malloc src d1).
  destruct (img_transpose_dims malloc src d1) as (Wt & Ht & St). fold t in Wt, Ht, St.
  destruct (img_mov_avg_h_dims malloc t d2 n) as (Wf & Hf & Sf).
  rewrite (img_transpose_packed malloc (img_mov_avg_h malloc t d2 n) d3 y x c)
    by (rewrite ?Wf, ?Hf, ?Sf, ?Wt, ?Ht; lia).
  rewrite (img_mov_avg_h_box_conv malloc t d2 n y x c)
    by (rewrite ?Wt, ?Ht; lia).
  rewrite img_mov_avg_v_box_conv by assumption.
  rewrite Wt. apply box_conv_ext; try lia.
  intros k Hk. unfold t.
  rewrite (img_transpose_packed malloc src d1 x k c) by (assumption || lia).
  reflexivity.
Qed.

End MovAvgV.

(** ** The checks of [parse_opt] *)

Section OptionChecks.
Variable beyond : nat -> ascii.
Variable strtof : string -> Q * string.

(** X21: whatever the key and the argument, a call of [parse_opt] that
    returns leaves the size of the blur odd and at least 1 and the number
    of passes at least 1, if they were so before (as they are in the
    defaults of [main]: 31 and 4). *)
Theorem parse_opt_checks (key : opt_key) (arg : string) (arg_num : Z)
  (a a' : arguments) (code : Z) :
  1 <= blur_size a -> Z.odd (blur_size a) = true -> 1 <= blur_passes a ->
  parse_opt beyond strtof key arg arg_num a = returned code a' ->
  1 <= blur_size a' /\ Z.odd (blur_size a') = true /\ 1 <= blur_passes a'.
Proof.
  intros Hs Ho Hp. unfold parse_opt. destruct key.
  - intros E. injection E as _ <-. cbn. auto.
  - destruct (strtol arg) as [v e].
    destruct (ptr_eq e arg || (to_int v <? 1)) eqn:E1; [discriminate |].
    destruct (Z.rem (to_int v) 2 =? 0) eqn:E2; [discriminate |].
    intros E. injection E as _ <-. cbn.
    apply orb_false_iff in E1. destruct E1 as [_ E1].
    apply Z.ltb_ge in E1. apply Z.eqb_neq in E2.
    repeat split; try assumption.
    rewrite <- Z.negb_even. apply negb_true_iff.
    destruct (Z.even (to_int v)) eqn:Ev; [| reflexivity].
    apply Z.even_spec in Ev. destruct Ev as [k Ek].
    exfalso. apply E2. rewrite Ek, Z.mul_comm. apply Z.rem_mul. lia.
  - destruct (strtoul arg) as [v e].
    destruct (ptr_eq e arg || (to_int v <? 1)) eqn:E1; [discriminate |].
    intros E. injection E as _ <-. cbn.
    apply orb_false_iff in E1. destruct E1 as [_ E1].
    apply Z.ltb_ge in E1. auto.
  - destruct (parse_geometry strtof arg (geom a)) as [r g].
    destruct (r =? 0); [discriminate |].
    intros E. injection E as _ <-. cbn. auto.
  - destruct (parse_raw_format beyond arg (raw_fmt a)) as [r f].
    destruct (r =? 0); [discriminate |].
    intros E. injection E as _ <-. cbn. auto.
  - destruct (arg_num =? 0).
    + intros E. injection E as _ <-. cbn. auto.
    + destruct (arg_num =? 1); [| discriminate].
      intros E. injection E as _ <-. cbn. auto.
  - destruct (arg_num <? 1); [discriminate |].
    intros E. injection E as _ <-. auto.
  - intros E. injection E as _ <-. auto.
Qed.

End OptionChecks.

(** ** The blur of [main] *)

Section MainBlur.
Variable malloc : Z -> mem.

Lemma blur_loop_dims (passes n : Z) (src dst : img) :
  width (fst (blur_loop malloc passes n src dst)) = width src
  /\ height (fst (blur_loop malloc passes n src dst)) = height src.
Proof.
  destruct (Z_le_gt_dec 0 passes) as [Hp|Hp].
  - unfold blur_loop.
    apply (for_range_ind
             (fun (_ : Z) sd => width (fst sd) = width src
                                /\ height (fst sd) = height src));
      [exact Hp | now split |].
    intros i sd _ [Hw Hh]. cbn [fst].
    destruct (img_mov_avg_h_dims malloc (fst sd) (snd sd) n) as (-> & -> & _).
    now split.
  - unfold blur_loop. rewrite for_range_empty by lia. now split.
Qed.

(** The passes keep a packed image packed and within its bounds. *)
Lemma blur_loop_range (passes n : Z) (src dst : img) (l u : Q) :
  0 <= passes -> 1 <= n -> Z.odd n = true -> n < 2 * width src ->
  stride src = 3 * width src ->
  (forall x y c, 0 <= x < width src -> 0 <= y < height src -> 0 <= c < 3 ->
     (l <= pixel_at src x y c <= u)%Q) ->
  stride (fst (blur_loop malloc passes n src dst)) = 3 * width src
  /\ forall x y c, 0 <= x < width src -> 0 <= y < height src -> 0 <= c < 3 ->
       (l <= pixel_at (fst (blur_loop malloc passes n src dst)) x y c <= u)%Q.
Proof.
  intros Hp Hn Hodd Hfit Hs Hsrc. unfold blur_loop.
  apply (for_range_ind
           (fun (_ : Z) sd =>
              (width (fst sd) = width src /\ height (fst sd) = height src)
              /\ stride (fst sd) = 3 * width src
              /\ forall x y c,
                   0 <= x < width src -> 0 <= y < height src -> 0 <= c < 3 ->
                   (l <= pixel_at (fst sd) x y c <= u)%Q)).
  - exact Hp.
  - cbn [fst]. split; [now split | split; [exact Hs | exact Hsrc]].
  - intros i sd _ ((Ew & Eh) & Es & Hr). cbn [fst].
    destruct (img_mov_avg_h_dims malloc (fst sd) (snd sd) n) as (Ew' & Eh' & Es').
    rewrite Ew', Eh', Es', Ew, Eh.
    split; [now split | split; [reflexivity |]].
    intros x y c Hx Hy Hc.
    rewrite img_mov_avg_h_box_conv by (rewrite ?Ew, ?Eh; lia).
    apply box_conv_range; rewrite ?Ew; try assumption; try lia.
    intros k Hk. apply Hr; lia.
Qed.


Lemma main_blur_bounds (im : img) (passes n : Z) (l u : Q) :
  0 <= passes -> 1 <= n -> Z.odd n = true ->
  n < 2 * width im -> n < 2 * height im ->
  stride im = 3 * width im ->
  (forall x y c, 0 <= x < width im -> 0 <= y < height im -> 0 <= c < 3 ->
     (l <= pixel_at im x y c <= u)%Q) ->
  forall x y c, 0 <= x < width im -> 0 <= y < height im -> 0 <= c < 3 ->
    (l <= pixel_at (main_blur malloc im passes n) x y c <= u)%Q.
Proof.
  intros Hp Hn Hodd Hfw Hfh Hs Him x y c Hx Hy Hc.
  unfold main_blur. cbv zeta. cbn [fst snd].
  set (img2 := img_init malloc img_local (width im) (height im)).
  set (sd1 := blur_loop malloc passes n im img2).
  set (t := img_transpose malloc (fst sd1) (snd sd1)).
  set (sd2 := blur_loop malloc passes n t (fst sd1)).
  destruct (blur_loop_dims passes n im img2) as (W1 & H1). fold sd1 in W1, H1.
  destruct (blur_loop_range passes n im img2 l u Hp Hn Hodd Hfw Hs Him)
    as (S1 & R1). fold sd1 in S1, R1.
  destruct (img_transpose_dims malloc (fst sd1) (snd sd1)) as (Wt & Ht & St).
  fold t in Wt, Ht, St.
  assert (Rt : forall x y c,
             0 <= x < width t -> 0 <= y < height t -> 0 <= c < 3 ->
             (l <= pixel_at t x y c <= u)%Q).
  { intros x0 y0 c0 Hx0 Hy0 Hc0. unfold t.
    rewrite (img_transpose_packed malloc (fst sd1) (snd sd1) y0 x0 c0)
      by (rewrite ?S1, ?W1, ?H1; lia).
    apply R1; lia. }
  destruct (blur_loop_dims passes n t (fst sd1)) as (W2 & H2). fold sd2 in W2, H2.
  destruct (blur_loop_range passes n t (fst sd1) l u Hp Hn Hodd
              ltac:(lia) ltac:(lia) Rt) as (S2 & R2). fold sd2 in S2, R2.
  rewrite (img_transpose_packed malloc (fst sd2) (snd sd2) y x c)
    by (rewrite ?S2, ?W2, ?H2; lia).
  apply R2; lia.
Qed.

(** X23: in exact arithmetic, for an odd kernel that fits both ways, the
    blur of [main] leaves a constant image as it is. *)
Theorem main_blur_constant (im : img) (passes n : Z) (k : Q) :
  0 <= passes -> 1 <= n -> Z.odd n = true ->
  n < 2 * width im -> n < 2 * height im ->
  stride im = 3 * width im ->
  (forall x y c, 0 <= x < width im -> 0 <= y < height im -> 0 <= c < 3 ->
     (pixel_at im x y c == k)%Q) ->
  forall x y c, 0 <= x < width im -> 0 <= y < height im -> 0 <= c < 3 ->
    (pixel_at (main_blur malloc im passes n) x y c == k)%Q.
Proof.
  intros Hp Hn Hodd Hfw Hfh Hs Him x y c Hx Hy Hc.
  assert (Hb : forall x y c,
             0 <= x < width im -> 0 <= y < height im -> 0 <= c < 3 ->
             (k <= pixel_at im x y c <= k)%Q).
  { intros x0 y0 c0 Hx0 Hy0 Hc0. rewrite (Him x0 y0 c0) by assumption.
    split; apply Qle_refl. }
  destruct (main_blur_bounds im passes n k k Hp Hn Hodd Hfw Hfh Hs Hb x y c
              Hx Hy Hc) as [H1 H2].
  now apply Qle_antisym.
Qed.

End MainBlur.

(** ** The row filter in binary32 *)

(** X24: in binary32 the running sum of the row filter keeps a residue of
    rounding, and the filter can leave the range of its input. Every
    decoded byte is in [0, 1]; for the row of six pixels whose channels
    are the decoded bytes 1, 28, 0, 0, 0, 0 and [n = 3], the pixels 3 to 5
    of the result hold [- 2 ^ -31], and [sqrtf] of it, which
    [gamma_encode_fast] takes, is not a number. *)
Theorem mov_avg_row_below_zero :
  (forall v : byte,
     B32.le B32.zero (B32.gamma_decode_fast v) = true
     /\ B32.le (B32.gamma_decode_fast v) B32.one = true)
  /\ (forall x c : Z, 3 <= x < 6 -> 0 <= c < 3 ->
        B32.mov_avg_row residue_row 0 6 3 (fun _ => B32.zero) (3 * x + c)
        = S754_finite true 8388608 (-54))
  /\ B32.gt B32.zero (S754_finite true 8388608 (-54)) = true
  /\ B32.sqrtf (S754_finite true 8388608 (-54)) = S754_nan.
Proof.
  split; [| split; [| split; reflexivity]].
  - intros v. destruct v; split; vm_compute; reflexivity.
  - intros x c Hx Hc.
    assert (Ex : x = 3 \/ x = 4 \/ x = 5) by lia.
    assert (Ec : c = 0 \/ c = 1 \/ c = 2) by lia.
    destruct Ex as [-> | [-> | ->]]; destruct Ec as [-> | [-> | ->]];
      vm_compute; reflexivity.
Qed.

(** ** The gamma round trip *)

Section RealGamma.
Local Open Scope R_scope.

Lemma Int_part_half (i : Z) : Int_part (IZR i + / 2) = i.
Proof. symmetry. apply Int_part_spec. Lra.lra. Qed.

(** The integer part of [255 * y + 1/2] is the level nearest to [y]. *)
Lemma nearest_level (y : R) :
  0 <= y <= 1 ->
  (0 <= Int_part (255 * y + / 2) <= 255)%Z
  /\ IZR (Int_part (255 * y + / 2)) - / 2 <= 255 * y
     < IZR (Int_part (255 * y + / 2)) + / 2.
Proof.
  intros [H0 H1].
  destruct (base_Int_part (255 * y + / 2)) as [Hl Hu].
  set (k := Int_part (255 * y + / 2)) in *.
  split; [| Lra.lra].
  split.
  - apply le_IZR. apply Rnot_lt_le. intros C.
    assert (IZR k <= -1) by (apply IZR_le; apply lt_IZR in C; lia).
    Lra.lra.
  - apply le_IZR. apply Rnot_lt_le. intros C.
    assert (256 <= IZR k) by (apply IZR_le; apply lt_IZR in C; lia).
    Lra.lra.
Qed.

Lemma powf_0 (y : R) : RGamma.powf 0 y = 0.
Proof. unfold RGamma.powf. destruct (Req_dec_T 0 0); [reflexivity | contradiction]. Qed.

Lemma powf_pos (x y : R) : 0 < x -> RGamma.powf x y = Rpower x y.
Proof.
  intros H. unfold RGamma.powf.
  destruct (Req_dec_T x 0); [Lra.lra | reflexivity].
Qed.

Lemma Rpower_pos (x y : R) : 0 < Rpower x y.
Proof. unfold Rpower. apply exp_pos. Qed.

Lemma GAMMA_rcp : RGamma.GAMMA * (1 / RGamma.GAMMA) = 1.
Proof. unfold RGamma.GAMMA. field. Qed.

(** [powf (., 1 / GAMMA)] undoes [powf (., GAMMA)] and conversely. *)
Lemma powf_GAMMA_rcp (x : R) :
  0 <= x -> RGamma.powf (RGamma.powf x RGamma.GAMMA) (1 / RGamma.GAMMA) = x.
Proof.
  intros [H | <-]; [| now rewrite !powf_0].
  rewrite (powf_pos x) by exact H.
  rewrite powf_pos by apply Rpower_pos.
  now rewrite Rpower_mult, GAMMA_rcp, Rpower_1.
Qed.

Lemma powf_rcp_GAMMA (x : R) :
  0 <= x -> RGamma.powf (RGamma.powf x (1 / RGamma.GAMMA)) RGamma.GAMMA = x.
Proof.
  intros [H | <-]; [| now rewrite !powf_0].
  rewrite (powf_pos x) by exact H.
  rewrite powf_pos by apply Rpower_pos.
  rewrite Rpower_mult, (Rmult_comm (1 / RGamma.GAMMA)), GAMMA_rcp.
  now apply Rpower_1.
Qed.

Lemma powf_le (x y g : R) :
  0 <= g -> 0 <= x <= y -> RGamma.powf x g <= RGamma.powf y g.
Proof.
  intros Hg [[Hx | <-] Hxy].
  - rewrite !powf_pos by Lra.lra. apply Rle_Rpower_l; [exact Hg | Lra.lra].
  - rewrite powf_0. destruct Hxy as [Hy | <-].
    + rewrite powf_pos by exact Hy. left. apply Rpower_pos.
    + rewrite powf_0. apply Rle_refl.
Qed.

Lemma powf_unit (x g : R) : 0 <= g -> 0 <= x <= 1 -> 0 <= RGamma.powf x g <= 1.
Proof.
  intros Hg [H0 H1]. split.
  - rewrite <- (powf_0 g). apply powf_le; [exact Hg | Lra.lra].
  - assert (E : RGamma.powf 1 g = 1).
    { rewrite powf_pos by Lra.lra. unfold Rpower. rewrite ln_1, Rmult_0_r.
      apply exp_0. }
    rewrite <- E. apply powf_le; [exact Hg | Lra.lra].
Qed.

Lemma GAMMA_pos : 0 < RGamma.GAMMA.
Proof. unfold RGamma.GAMMA. Lra.lra. Qed.

Lemma level_unit (i : Z) : (0 <= i <= 255)%Z -> 0 <= IZR i * RGamma.scale_factor <= 1.
Proof.
  intros [H0 H1]. apply IZR_le in H0, H1. unfold RGamma.scale_factor. Lra.lra.
Qed.

(** The encoders give back the byte that was decoded. *)
Lemma gamma_encode_decode (i : Z) :
  (0 <= i <= 255)%Z ->
  RGamma.gamma_encode_fast (RGamma.gamma_decode_fast i) = i
  /\ RGamma.gamma_encode (RGamma.gamma_decode_lut i) = i.
Proof.
  intros Hi. destruct (level_unit i Hi) as [H0 H1].
  unfold RGamma.gamma_encode_fast, RGamma.gamma_decode_fast,
    RGamma.gamma_encode, RGamma.gamma_decode_lut. cbv zeta. split.
  - rewrite sqrt_square by exact H0.
    replace (255 * (IZR i * RGamma.scale_factor)) with (IZR i)
      by (unfold RGamma.scale_factor; field).
    apply Int_part_half.
  - rewrite powf_GAMMA_rcp by exact H0.
    replace (255 * (IZR i * RGamma.scale_factor)) with (IZR i)
      by (unfold RGamma.scale_factor; field).
    apply Int_part_half.
Qed.

(** A value [x] whose image [y] under the inverse of an increasing decode
    [dec] is encoded as level [k] lies between the decoded levels next to
    [k]. *)
Lemma between_levels (dec : R -> R) (x y : R) :
  (forall a b, 0 <= a <= b -> dec a <= dec b) ->
  0 <= y <= 1 -> dec y = x ->
  let k := Int_part (255 * y + / 2) in
  (0 <= k <= 255)%Z
  /\ dec (IZR (Z.max (k - 1) 0) * RGamma.scale_factor) <= x
     <= dec (IZR (Z.min (k + 1) 255) * RGamma.scale_factor).
Proof.
  intros Hmono Hy <- k. destruct (nearest_level y Hy) as [Hk [Hl Hu]].
  fold k in Hk, Hl, Hu. split; [exact Hk |].
  unfold RGamma.scale_factor. split; apply Hmono.
  - split.
    + assert (0 <= IZR (Z.max (k - 1) 0)) by (apply IZR_le; lia). Lra.lra.
    + destruct (Z.max_spec (k - 1) 0) as [[_ ->] | [_ ->]].
      * Lra.lra.
      * rewrite minus_IZR. Lra.lra.
  - split; [Lra.lra |].
    destruct (Z.min_spec (k + 1) 255) as [[_ ->] | [_ ->]].
    + rewrite plus_IZR. Lra.lra.
    + Lra.lra.
Qed.

Lemma gamma_decode_encode_fast (x : R) :
  0 <= x <= 1 ->
  let k := RGamma.gamma_encode_fast x in
  (0 <= k <= 255)%Z
  /\ RGamma.gamma_decode_fast (Z.max (k - 1) 0) <= x
     <= RGamma.gamma_decode_fast (Z.min (k + 1) 255).
Proof.
  intros [H0 H1].
  assert (Hy : 0 <= sqrt x <= 1).
  { split; [apply sqrt_pos |]. rewrite <- sqrt_1. apply sqrt_le_1; Lra.lra. }
  apply (between_levels (fun t => t * t) x (sqrt x)).
  - intros a b [Ha Hab]. apply Rmult_le_compat; Lra.lra.
  - exact Hy.
  - now apply sqrt_sqrt.
Qed.

Lemma gamma_decode_encode (x : R) :
  0 <= x <= 1 ->
  let k := RGamma.gamma_encode x in
  (0 <= k <= 255)%Z
  /\ RGamma.gamma_decode_lut (Z.max (k - 1) 0) <= x
     <= RGamma.gamma_decode_lut (Z.min (k + 1) 255).
Proof.
  intros Hx.
  assert (Hr : 0 <= 1 / RGamma.GAMMA).
  { unfold RGamma.GAMMA. Lra.lra. }
  apply (between_levels (fun t => RGamma.powf t RGamma.GAMMA) x
           (RGamma.powf x (1 / RGamma.GAMMA))).
  - intros a b Hab. apply powf_le; [left; apply GAMMA_pos | exact Hab].
  - now apply powf_unit.
  - apply powf_rcp_GAMMA. Lra.lra.
Qed.

End RealGamma.


(** ** The examples *)

Lemma ramp_img_range (x y c : Z) :
  0 <= x < width (ramp_img 2 2) -> 0 <= y < height (ramp_img 2 2) ->
  0 <= c < 3 ->
  (0 <= pixel_at (ramp_img 2 2) x y c <= 11)%Q.
Proof.
  cbn [width height ramp_img]. intros Hx Hy Hc.
  unfold pixel_at, ramp_img, px, ramp. cbn [pixels stride].
  change 0%Q with (inject_Z 0). change 11%Q with (inject_Z 11).
  rewrite <- !Zle_Qle. lia.
Qed.

Lemma sqrt_encode_decode_fast (v : byte) :
  sqrt_encode (gamma_decode_fast v) = v.
Proof. destruct v; vm_compute; reflexivity. Qed.

(** * Instances *)

Lemma img_transpose_twice_witness :
  0 < width (mk_img 2 1 6 true 24 (Some ramp))
  /\ 0 < height (mk_img 2 1 6 true 24 (Some ramp))
  /\ stride (mk_img 2 1 6 true 24 (Some ramp))
     = 3 * width (mk_img 2 1 6 true 24 (Some ramp))
  /\ pixel_at
       (img_transpose zero_block
          (img_transpose zero_block (mk_img 2 1 6 true 24 (Some ramp))
             img_local) img_local) 1 0 2
     = pixel_at (mk_img 2 1 6 true 24 (Some ramp)) 1 0 2.
Proof.
  assert (Hw : 0 < width (mk_img 2 1 6 true 24 (Some ramp))) by (cbn; lia).
  assert (Hh : 0 < height (mk_img 2 1 6 true 24 (Some ramp))) by (cbn; lia).
  assert (Hs : stride (mk_img 2 1 6 true 24 (Some ramp))
               = 3 * width (mk_img 2 1 6 true 24 (Some ramp))) by reflexivity.
  split; [exact Hw |]. split; [exact Hh |]. split; [exact Hs |].
  refine (proj2 (proj2 (img_transpose_twice zero_block _ img_local img_local
                          Hw Hh Hs)) 1 0 2 _ _ _); cbn; lia.
Defined.

Lemma img_set_size_fits_witness :
  4 * 3 * 2 * 2 <= INT_MAX
  /\ 0 <= stride (img_set_size zero_block img_local 2 2) * 1 + 3 * 1 + 2
  /\ 4 * (stride (img_set_size zero_block img_local 2 2) * 1 + 3 * 1 + 2 + 1)
     <= alloc_size (img_set_size zero_block img_local 2 2).
Proof.
  assert (H : 4 * 3 * 2 * 2 <= INT_MAX) by (unfold INT_MAX; lia).
  split; [exact H |].
  apply (img_set_size_fits zero_block img_local 2 2 1 1 2 H); lia.
Defined.

Lemma img_set_size_reuses_block_witness :
  (1 * 3 <= 2 * 2 /\ 4 * 3 * 2 * 2 <= INT_MAX)
  /\ pixels (img_set_size zero_block (img_set_size zero_block img_local 2 2) 1 3)
     = pixels (img_set_size zero_block img_local 2 2)
  /\ width (img_set_size zero_block (img_set_size zero_block img_local 2 2) 1 3)
     = 1.
Proof.
  assert (H : 1 * 3 <= 2 * 2) by lia.
  assert (Hfit : 4 * 3 * 2 * 2 <= INT_MAX) by (unfold INT_MAX; lia).
  split; [split; [exact H | exact Hfit] |].
  destruct (img_set_size_reuses_block zero_block img_local 2 2 1 3
              ltac:(lia) ltac:(lia) H Hfit) as (Hp & _ & Hw & _).
  split; [exact Hp | exact Hw].
Defined.

Lemma img_gamma_decode_bitmap_rgb_pixels_witness :
  pixel_format_size (fmt_format (mk_raw_image_format FORMAT_BGR 2 2)) = 3
  /\ pixel_at
       (img_gamma_decode_bitmap zero_block gamma_decode_fast img_local
          four_pixels (mk_raw_image_format FORMAT_BGR 2 2) true) 1 0 0
     = gamma_decode gamma_decode_fast true
         (byte_at four_pixels
            (3 * (fmt_width (mk_raw_image_format FORMAT_BGR 2 2) * 0 + 1)
             + pixel_format_rgb_offset
                 (fmt_format (mk_raw_image_format FORMAT_BGR 2 2)) 0)).
Proof.
  assert (E : pixel_format_size (fmt_format (mk_raw_image_format FORMAT_BGR 2 2))
              = 3) by reflexivity.
  split; [exact E |].
  refine (proj2 (proj2 (proj2
            (img_gamma_decode_bitmap_rgb_pixels zero_block gamma_decode_fast
               img_local four_pixels (mk_raw_image_format FORMAT_BGR 2 2) true
               1 0 0 E _ _ _)))); cbn; lia.
Defined.

Lemma img_gamma_encode_to_bitmap_packed_witness :
  img_gamma_encode_to_bitmap sqrt_encode sqrt_encode zero_bytes
    (ramp_img 2 2) true (3 * (width (ramp_img 2 2) * 1 + 1) + 2)
  = sqrt_encode (pixel_at (ramp_img 2 2) 1 1 2).
Proof.
  apply (img_gamma_encode_to_bitmap_packed sqrt_encode sqrt_encode zero_bytes
           (ramp_img 2 2) true 1 1 2); cbn; lia.
Defined.

Lemma img_gamma_decode_encode_bitmap_witness :
  (forall v, sqrt_encode (gamma_decode gamma_decode_fast true v) = v)
  /\ img_gamma_encode_to_bitmap sqrt_encode sqrt_encode zero_bytes
       (img_gamma_decode_bitmap zero_block gamma_decode_fast img_local
          four_pixels (mk_raw_image_format FORMAT_RGB 2 2) true)
       true 7
     = byte_at four_pixels 7.
Proof.
  split; [exact sqrt_encode_decode_fast |].
  apply (img_gamma_decode_encode_bitmap zero_block gamma_decode_fast
           sqrt_encode sqrt_encode zero_bytes img_local four_pixels 2 2 true 7);
    [exact sqrt_encode_decode_fast | lia | lia | lia].
Defined.


Lemma img_interp_nearest_same_size_witness :
  pixel_at
    (img_interp_nearest zero_block (ramp_img 2 2) (width (ramp_img 2 2))
       (height (ramp_img 2 2))) 1 1 1
  = pixel_at (ramp_img 2 2) 1 1 1.
Proof.
  apply (img_interp_nearest_same_size zero_block (ramp_img 2 2) 1 1 1);
    cbn; lia.
Defined.


Lemma img_mov_avg_h_filtered_witness :
  (pixel_at (img_mov_avg_h zero_block (ramp_img 2 2) img_local 3) 1 1 0
   == box_conv (fun k => pixel_at (ramp_img 2 2) k 1 0)
        (width (ramp_img 2 2)) 3 1)%Q.
Proof.
  refine (proj2 (proj2 (proj2
            (img_mov_avg_h_filtered zero_block (ramp_img 2 2) img_local 3 _ _)))
            1 1 0 _ _ _); cbn; lia.
Defined.

Lemma img_mov_avg_h_range_witness :
  (0 <= pixel_at (img_mov_avg_h zero_block (ramp_img 2 2) img_local 3) 1 1 0
   <= 11)%Q.
Proof.
  refine (img_mov_avg_h_range zero_block (ramp_img 2 2) img_local 3 0 11
            _ _ _ ramp_img_range 1 1 0 _ _ _);
    first [reflexivity | cbn; lia].
Defined.

Lemma mov_avg_reads_in_row_witness :
  Forall (fun i => 0 <= i <= 2 - 1) (mov_avg_reads 2 3).
Proof. apply (mov_avg_reads_in_row 2 3); lia. Defined.

Lemma mov_avg_row_reads_witness :
  mov_avg_row (fun x c => ramp (3 * x + c)) 0 2 3 (zero_block 0) 3
  = mov_avg_row (fun x c => if x <? 2 then ramp (3 * x + c) else 0%Q)
      0 2 3 (zero_block 0) 3.
Proof.
  apply (mov_avg_row_reads (fun x c => ramp (3 * x + c))
           (fun x c => if x <? 2 then ramp (3 * x + c) else 0%Q) 0 2 3).
  intros x c H.
  change (In x [0; 1; 1; 0]) in H.
  destruct H as [<- | [<- | [<- | [<- | []]]]]; reflexivity.
Defined.

Lemma img_mov_avg_v_filtered_witness :
  (pixel_at (img_mov_avg_v zero_block (ramp_img 2 2) img_local 3) 1 1 0
   == box_conv (fun k => pixel_at (ramp_img 2 2) 1 k 0)
        (height (ramp_img 2 2)) 3 1)%Q.
Proof.
  refine (proj2 (proj2 (proj2
            (img_mov_avg_v_filtered zero_block (ramp_img 2 2) img_local 3 _ _)))
            1 1 0 _ _ _); cbn; lia.
Defined.

Lemma img_transpose_mov_avg_h_is_mov_avg_v_witness :
  (pixel_at
     (img_transpose zero_block
        (img_mov_avg_h zero_block
           (img_transpose zero_block (ramp_img 2 2) img_local) img_local 3)
        img_local) 1 1 0
   == pixel_at (img_mov_avg_v zero_block (ramp_img 2 2) img_local 3) 1 1 0)%Q.
Proof.
  apply (img_transpose_mov_avg_h_is_mov_avg_v zero_block (ramp_img 2 2)
           img_local img_local img_local img_local 3 1 1 0);
    first [reflexivity | cbn; lia].
Defined.

Lemma main_blur_constant_witness :
  (pixel_at (main_blur ramp_block (flat_img 2 2 (1 # 2)) 4 3) 1 1 0 == 1 # 2)%Q.
Proof.
  apply (main_blur_constant ramp_block (flat_img 2 2 (1 # 2)) 4 3 (1 # 2));
    first [reflexivity | cbn; lia | intros; reflexivity].
Defined.

Lemma parse_opt_checks_witness :
  parse_opt no_bytes no_float KEY_z "5" 0 default_arguments
  = returned 0
      (mk_arguments None None false false 5 4 CROP_NONE
         (mk_geometry (-1) (-1) (1 # 2)) (mk_raw_image_format FORMAT_RGB 0 0))
  /\ 1 <= 5 /\ Z.odd 5 = true /\ 1 <= 4.
Proof.
  assert (E : parse_opt no_bytes no_float KEY_z "5" 0 default_arguments
              = returned 0
                  (mk_arguments None None false false 5 4 CROP_NONE
                     (mk_geometry (-1) (-1) (1 # 2))
                     (mk_raw_image_format FORMAT_RGB 0 0))) by reflexivity.
  split; [exact E |].
  apply (parse_opt_checks no_bytes no_float KEY_z "5" 0 default_arguments _ 0
           ltac:(cbn; lia) eq_refl ltac:(cbn; lia) E).
Defined.


Lemma img_box2x2_unfilled_witness :
  pixel_at (img_box2x2 zero_block (ramp_img 4 2) img_local) 1 0 0
  = pixel_at
      (img_set_size zero_block img_local (Z.quot (width (ramp_img 4 2)) 2)
         (Z.quot (height (ramp_img 4 2)) 2)) 1 0 0.
Proof.
  apply (img_box2x2_unfilled zero_block (ramp_img 4 2) img_local 1 0 0);
    cbn; lia.
Defined.

Lemma img_decimate_dims_witness :
  width (img_decimate zero_block (ramp_img 5 3) 1) = width (ramp_img 5 3) / 2 ^ 1
  /\ height (img_decimate zero_block (ramp_img 5 3) 1)
     = height (ramp_img 5 3) / 2 ^ 1.
Proof.
  apply (img_decimate_dims zero_block (ramp_img 5 3) 1); cbn; lia.
Defined.

